(** * A shallow embedding of [src/blockchain/blockchain.ts]

    The module keeps two global variables, [blockchain] and
    [unspentTxOuts], and calls into four collaborators that live in
    other files ([Validator], [Util], [Network], [transaction]).  The
    globals become a record [State] that every operation threads
    explicitly; the collaborators become the fields of a type class.

    Conventions.
    - A TypeScript [number] holding an index, a timestamp, a difficulty
      or a nonce is an integer of [Z].
    - [Math.pow(2, d)] and the sums of such powers are IEEE-754 doubles.
      They are never negative, and a double that is not negative is
      either infinite or a whole number of times 2^-1074, the smallest
      positive double: [JS.number] holds that whole number.  Addition
      rounds to nearest, ties to even, and overflows to infinity.
    - Reading a property of [undefined] and reducing an empty array
      without a seed raise [TypeError]; an operation returns an
      [outcome] together with the state the globals are left in.
    - The [while (true)] loop of [findBlock] is run with a bound on the
      number of iterations; exhausting the bound is the outcome
      [OutOfFuel].
    - The collaborators are total functions: an exception raised
      inside one of them is not modelled.
    - [console.log] is not modelled; [Network.broadcastLatest] is
      recorded by a counter.
    - Only the operations of this module change the state: a caller
      that keeps and mutates an array it has handed to [replaceChain]
      or received from [getBlockchain] is not modelled. *)

From Stdlib Require Import ZArith QArith Qpower List String Ascii Bool Lia.
Import ListNotations.

Local Open Scope Z_scope.

(** ** The JavaScript primitives the module relies on *)

Module JS.

(** Exceptions raised by the runtime in the code under study. *)
Inductive exn : Type := TypeError.

Inductive outcome (A : Type) : Type :=
| Ret (a : A)
| Throw (e : exn)
| OutOfFuel.

Arguments Ret {A} a.
Arguments Throw {A} e.
Arguments OutOfFuel {A}.

(** [arr[i]]: [undefined] (here [None]) for a negative or too large [i]. *)
Definition index_of {A : Type} (arr : list A) (i : Z) : option A :=
  if i <? 0 then None else nth_error arr (Z.to_nat i).

(** [arr.length] *)
Definition length_of {A : Type} (arr : list A) : Z := Z.of_nat (List.length arr).

(** [arr.reduce(f)] with no initial value. *)
Definition reduce {A : Type} (f : A -> A -> A) (arr : list A) : outcome A :=
  match arr with
  | [] => Throw TypeError
  | x :: rest => Ret (fold_left f rest x)
  end.

(** A double that is not negative: [Finite n] is n * 2^-1074. *)
Inductive number : Type :=
| Finite (units : Z)
| Infinity.

(** The double nearest to n * 2^-1074, ties to even.  A double has a
    significand of 53 bits: the bits of [n] beyond them are rounded
    away, and a result of 2^1024 or more is infinite. *)
Definition round (n : Z) : number :=
  let excess := Z.log2 n - 52 in
  if excess <=? 0 then Finite n
  else
    let q := n / 2 ^ excess in
    let r := n mod 2 ^ excess in
    let half := 2 ^ (excess - 1) in
    let q' := if r <? half then q
              else if half <? r then q + 1
              else if Z.even q then q else q + 1 in
    if 2 ^ 2098 <=? q' * 2 ^ excess then Infinity else Finite (q' * 2 ^ excess).

(** [a + b] on numbers. *)
Definition add (a b : number) : number :=
  match a, b with
  | Finite x, Finite y => round (x + y)
  | _, _ => Infinity
  end.

(** [Math.pow(2, d)] for an integer [d]: 0 below the smallest double,
    infinite from 2^1024 on. *)
Definition pow2 (d : Z) : number :=
  if d <? -1074 then Finite 0
  else if 1023 <? d then Infinity
  else Finite (2 ^ (d + 1074)).

(** [a > b] on numbers. *)
Definition greater (a b : number) : bool :=
  match a, b with
  | Finite x, Finite y => y <? x
  | Infinity, Finite _ => true
  | _, Infinity => false
  end.

(** The double of the whole number [n], for 0 <= n < 2^53. *)
Definition ofZ (n : Z) : number := Finite (n * 2 ^ 1074).

(** [n] is the number of units of a double: a significand of at most
    53 bits times a power of two. *)
Definition representable (n : Z) : Prop :=
  exists q k : Z, 0 <= k /\ 0 <= q < 2 ^ 53 /\ n = q * 2 ^ k.

Definition wf (x : number) : Prop :=
  match x with
  | Finite n => representable n /\ n < 2 ^ 2098
  | Infinity => True
  end.

Definition below (a b : number) : Prop := greater a b = false.

(** [x.field] where [x] may be [undefined]. *)
Definition defined {A : Type} (x : option A) : outcome A :=
  match x with
  | Some a => Ret a
  | None => Throw TypeError
  end.

End JS.

Import JS.

(** ** Blocks and collaborators *)

(** The block of the source: a class with seven public fields. *)
Record Block (Transaction : Type) : Type := mkBlock {
  index : Z;
  hash : string;
  previousHash : string;
  timestamp : Z;
  data : list Transaction;
  difficulty : Z;
  nonce : Z
}.

Arguments mkBlock {Transaction}.
Arguments index {Transaction}.
Arguments hash {Transaction}.
Arguments previousHash {Transaction}.
Arguments timestamp {Transaction}.
Arguments data {Transaction}.
Arguments difficulty {Transaction}.
Arguments nonce {Transaction}.

(** What the module imports.  [isValidNewBlock] is handed whatever
    [getLatestBlock()] evaluates to, [undefined] included;
    [processTransactions] answers [null] (here [None]) on failure. *)
Class Collaborators : Type := {
  Transaction : Type;
  UnspentTxOut : Type;
  calculateHash : Z -> string -> Z -> list Transaction -> Z -> Z -> string;
  hashMatchesDifficulty : string -> Z -> bool;
  isValidNewBlock : Block Transaction -> option (Block Transaction) -> bool;
  isValidChain : list (Block Transaction) -> bool;
  processTransactions :
    list Transaction -> list UnspentTxOut -> Z -> option (list UnspentTxOut)
}.

(** ** The module *)

Section Model.

Context {C : Collaborators}.

Definition block : Type := Block Transaction.

Definition genesisBlock : block :=
  mkBlock 0 "816534932c2b7154836da6afc367695e6337db8a921823784c14378abed4f7d7"
          "0" 1588310945 [] 0 0.

(** The two module-level variables, and the number of broadcast
    signals sent so far. *)
Record State : Type := mkState {
  blockchain : list block;
  unspentTxOuts : list UnspentTxOut;
  broadcasts : nat
}.

Definition initial : State := mkState [genesisBlock] [] 0.

(** Operations run on the state and end in an outcome. *)
Definition M (A : Type) : Type := State -> outcome A * State.

Definition ret {A : Type} (a : A) : M A := fun st => (Ret a, st).

Definition bind {A B : Type} (m : M A) (k : A -> M B) : M B :=
  fun st =>
    match m st with
    | (Ret a, st') => k a st'
    | (Throw e, st') => (Throw e, st')
    | (OutOfFuel, st') => (OutOfFuel, st')
    end.

Definition lift {A : Type} (o : outcome A) : M A := fun st => (o, st).

Definition gets {A : Type} (f : State -> A) : M A := fun st => (Ret (f st), st).

Definition reads {A : Type} (f : State -> outcome A) : M A := fun st => (f st, st).

Definition modify (f : State -> State) : M unit := fun st => (Ret tt, f st).

Notation "x <- m ;; k" := (bind m (fun x => k))
  (at level 61, m at next level, right associativity).
Notation "m ;;; k" := (bind m (fun _ => k))
  (at level 61, right associativity).

Definition getBlockchain (st : State) : list block := blockchain st.

Definition getGenesisBlock : block := genesisBlock.

Definition getLatestBlock (st : State) : option block :=
  index_of (blockchain st) (length_of (blockchain st) - 1).

Definition BLOCK_GENERATION_INTERVAL : Z := 10.

Definition DIFFICULTY_ADJUSTMENT_INTERVAL : Z := 10.

(** Both difficulty functions take the chain as a parameter and read
    the length of the global [blockchain]. *)
Definition getAdjustedDifficulty (st : State) (latestBlock : block)
           (aBlockchain : list block) : outcome Z :=
  match index_of aBlockchain
          (length_of (blockchain st) - DIFFICULTY_ADJUSTMENT_INTERVAL) with
  | None => Throw TypeError
  | Some prevAdjustmentBlock =>
      let timeExpected := BLOCK_GENERATION_INTERVAL * DIFFICULTY_ADJUSTMENT_INTERVAL in
      let timeTaken := timestamp latestBlock - timestamp prevAdjustmentBlock in
      if timeTaken <? timeExpected / 2 then
        Ret (difficulty prevAdjustmentBlock + 1)
      else if timeTaken >? timeExpected * 2 then
        Ret (difficulty prevAdjustmentBlock - 1)
      else
        Ret (difficulty prevAdjustmentBlock)
  end.

Definition getDifficulty (st : State) (aBlockchain : list block) : outcome Z :=
  match index_of aBlockchain (length_of (blockchain st) - 1) with
  | None => Throw TypeError
  | Some latestBlock =>
      if (Z.rem (index latestBlock) DIFFICULTY_ADJUSTMENT_INTERVAL =? 0)
         && negb (index latestBlock =? 0)
      then getAdjustedDifficulty st latestBlock aBlockchain
      else Ret (difficulty latestBlock)
  end.

Definition getAccumulatedDifficulty (aBlockchain : list block) : outcome number :=
  reduce add (map pow2 (map difficulty aBlockchain)).

(** The loop of [findBlock], entered with the current [nonce]. *)
Fixpoint findBlock_from (fuel : nat) (nonce0 : Z) (index0 : Z)
         (previousHash0 : string) (timestamp0 : Z) (data0 : list Transaction)
         (difficulty0 : Z) : option block :=
  match fuel with
  | O => None
  | S fuel' =>
      let hash0 :=
        calculateHash index0 previousHash0 timestamp0 data0 difficulty0 nonce0 in
      if hashMatchesDifficulty hash0 difficulty0 then
        Some (mkBlock index0 hash0 previousHash0 timestamp0 data0 difficulty0 nonce0)
      else
        findBlock_from fuel' (nonce0 + 1) index0 previousHash0 timestamp0 data0
                       difficulty0
  end.

Definition findBlock (fuel : nat) (index0 : Z) (previousHash0 : string)
           (timestamp0 : Z) (data0 : list Transaction) (difficulty0 : Z)
  : option block :=
  findBlock_from fuel 0 index0 previousHash0 timestamp0 data0 difficulty0.

(** [blockchain.push(newBlock)] *)
Definition push (newBlock : block) (st : State) : State :=
  mkState (blockchain st ++ [newBlock]) (unspentTxOuts st) (broadcasts st).

(** [unspentTxOuts = u] *)
Definition set_unspentTxOuts (u : list UnspentTxOut) (st : State) : State :=
  mkState (blockchain st) u (broadcasts st).

(** [blockchain = chain] *)
Definition set_blockchain (chain : list block) (st : State) : State :=
  mkState chain (unspentTxOuts st) (broadcasts st).

(** [Network.broadcastLatest()] *)
Definition broadcastLatest (st : State) : State :=
  mkState (blockchain st) (unspentTxOuts st) (S (broadcasts st)).

Definition addBlockToChain (newBlock : block) : M bool :=
  latest <- gets getLatestBlock ;;
  if isValidNewBlock newBlock latest then
    current <- gets unspentTxOuts ;;
    match processTransactions (data newBlock) current (index newBlock) with
    | None => ret false
    | Some newUnspentTxOuts =>
        modify (push newBlock) ;;;
        modify (set_unspentTxOuts newUnspentTxOuts) ;;;
        ret true
    end
  else ret false.

(** [now] is the value [Util.getCurrentTimestamp()] returns. *)
Definition generateNextBlock (fuel : nat) (now : Z) (data0 : list Transaction)
  : M (option block) :=
  latest <- gets getLatestBlock ;;
  previousBlock <- lift (defined latest) ;;
  let nextIndex := index previousBlock + 1 in
  let nextTimestamp := now in
  difficulty0 <- reads (fun st => getDifficulty st (getBlockchain st)) ;;
  match findBlock fuel nextIndex (hash previousBlock) nextTimestamp data0
                  difficulty0 with
  | None => lift OutOfFuel
  | Some newBlock =>
      added <- addBlockToChain newBlock ;;
      if added then
        modify broadcastLatest ;;;
        ret (Some newBlock)
      else ret None
  end.

Definition replaceChain (newBlockchain : list block) : M unit :=
  if isValidChain newBlockchain then
    received <- lift (getAccumulatedDifficulty newBlockchain) ;;
    current <- gets getBlockchain ;;
    held <- lift (getAccumulatedDifficulty current) ;;
    if greater received held then
      modify (set_blockchain newBlockchain) ;;;
      modify broadcastLatest
    else ret tt
  else ret tt.

(** ** Notions the specification speaks of *)

(** Cumulative work: the sum over all blocks of two to the difficulty,
    as an exact rational. *)
Fixpoint cumulativeWork (chain : list block) : Q :=
  match chain with
  | [] => 0%Q
  | b :: rest => (2 ^ difficulty b + cumulativeWork rest)%Q
  end.

(** The same sum as a whole number, for difficulties that are not
    negative. *)
Fixpoint workZ (chain : list block) : Z :=
  match chain with
  | [] => 0
  | b :: rest => 2 ^ difficulty b + workZ rest
  end.

(** The double [x] is exactly the rational [w]. *)
Definition exactly (w : Q) (x : number) : Prop :=
  match x with
  | Finite n => (inject_Z n == w * inject_Z (2 ^ 1074))%Q
  | Infinity => False
  end.

(** Chains whose work is summed without rounding: the difficulties are
    not negative and the cumulative work is below 2^53. *)
Definition exactlySummable (chain : list block) : Prop :=
  Forall (fun b => 0 <= difficulty b) chain
  /\ (cumulativeWork chain < inject_Z (2 ^ 53))%Q.

(** The balance set obtained by folding the payloads of a chain, in
    chain order, with the payload applier, starting from [u]. *)
Fixpoint foldPayloads (chain : list block) (u : list UnspentTxOut)
  : option (list UnspentTxOut) :=
  match chain with
  | [] => Some u
  | b :: rest =>
      match processTransactions (data b) u (index b) with
      | None => None
      | Some u' => foldPayloads rest u'
      end
  end.

Definition rederived (chain : list block) : option (list UnspentTxOut) :=
  foldPayloads chain [].

(** The outcome of an operation and the state it leaves. *)
Definition result_of {A : Type} (m : M A) (st : State) : outcome A := fst (m st).

Definition state_after {A : Type} (m : M A) (st : State) : State := snd (m st).

(** [replaceChain candidate] installs the candidate: it becomes the
    canonical chain and the broadcast signal is sent. *)
Definition installs (candidate : list block) (st : State) : Prop :=
  state_after (replaceChain candidate) st
  = broadcastLatest (set_blockchain candidate st).

(** The fork-choice test of the specification. *)
Definition heavier (candidate : list block) (st : State) : Prop :=
  isValidChain candidate = true
  /\ (cumulativeWork (blockchain st) < cumulativeWork candidate)%Q.

(** The test of [replaceChain]: the chain validator accepts the
    candidate and the accumulated difficulty computed for it is greater
    than the one computed for the canonical chain. *)
Definition preferred (candidate : list block) (st : State) : Prop :=
  isValidChain candidate = true
  /\ exists received held : number,
      getAccumulatedDifficulty candidate = Ret received
      /\ getAccumulatedDifficulty (getBlockchain st) = Ret held
      /\ greater received held = true.

(** The test of the iteration of [findBlock] that tries nonce [n]. *)
Definition nonceMeets (index0 : Z) (previousHash0 : string) (timestamp0 : Z)
           (data0 : list Transaction) (difficulty0 : Z) (n : Z) : bool :=
  hashMatchesDifficulty
    (calculateHash index0 previousHash0 timestamp0 data0 difficulty0 n) difficulty0.

(** What [findBlock] promises of the block [b] it returns: the fields
    are the arguments, the hash is the digest at the nonce of [b] and
    meets the difficulty, and every smaller nonce, from 0 on, failed. *)
Definition mined (index0 : Z) (previousHash0 : string) (timestamp0 : Z)
           (data0 : list Transaction) (difficulty0 : Z) (b : block) : Prop :=
  index b = index0
  /\ previousHash b = previousHash0
  /\ timestamp b = timestamp0
  /\ data b = data0
  /\ difficulty b = difficulty0
  /\ hash b = calculateHash index0 previousHash0 timestamp0 data0 difficulty0 (nonce b)
  /\ hashMatchesDifficulty (hash b) difficulty0 = true
  /\ 0 <= nonce b
  /\ forall m : Z,
       0 <= m < nonce b ->
       hashMatchesDifficulty
         (calculateHash index0 previousHash0 timestamp0 data0 difficulty0 m)
         difficulty0 = false.

(** One call of an exported operation that can change the state. *)
Inductive step : State -> State -> Prop :=
| step_add : forall st b,
    step st (state_after (addBlockToChain b) st)
| step_generate : forall st fuel now payload,
    step st (state_after (generateNextBlock fuel now payload) st)
| step_replace : forall st chain,
    step st (state_after (replaceChain chain) st).

(** States reached from the initial one. *)
Inductive reachable : State -> Prop :=
| reach_initial : reachable initial
| reach_step : forall st st', reachable st -> step st st' -> reachable st'.

(** The state a successful append leaves: the block pushed and the
    balance set [u] installed. *)
Definition appended (b : block) (u : list UnspentTxOut) (st : State) : State :=
  set_unspentTxOuts u (push b st).

(** States reached from the initial one by appends alone, that is
    without [replaceChain]. *)
Inductive extended : State -> Prop :=
| extended_initial : extended initial
| extended_add : forall st b,
    extended st -> extended (state_after (addBlockToChain b) st)
| extended_generate : forall st fuel now payload,
    extended st -> extended (state_after (generateNextBlock fuel now payload) st).

(** Every block of the chain sits at the position its index names. *)
Definition indexed (chain : list block) : Prop :=
  forall (i : Z) (b : block), index_of chain i = Some b -> index b = i.

(** The test of [getDifficulty]: the index is a multiple of the
    adjustment interval other than 0. *)
Definition adjusts (b : block) : Prop :=
  Z.rem (index b) DIFFICULTY_ADJUSTMENT_INTERVAL = 0 /\ index b <> 0.

End Model.

(** ** Hashes as binary strings *)

Module Hex.

(** Number of zero bits at the front of a hexadecimal digit that is
    not ["0"]. *)
Definition zero_bits_of_digit (c : ascii) : nat :=
  match c with
  | "1"%char => 3
  | "2"%char | "3"%char => 2
  | "4"%char | "5"%char | "6"%char | "7"%char => 1
  | _ => 0
  end.

Fixpoint leading_zero_bits (h : string) : nat :=
  match h with
  | EmptyString => 0
  | String c rest =>
      if Ascii.eqb c "0" then (4 + leading_zero_bits rest)%nat
      else zero_bits_of_digit c
  end.

End Hex.

(** ** The collaborators as the specification describes them

    The specification fixes what the new-block validator checks, what
    the difficulty predicate means and that a payload is applied record
    by record; it leaves open the digest, what applying one record
    does, the bounds of the timestamp window and the chain validator,
    which are parameters here.  [clock] is the local time. *)

Module SpecModel.

Section Parameters.

Variables (Transaction UnspentTxOut : Type).
Variable digest : Z -> string -> Z -> list Transaction -> Z -> Z -> string.
Variable applyRecord :
  Transaction -> list UnspentTxOut -> Z -> option (list UnspentTxOut).
Variable acceptableTimestamp : Z -> Z -> Z -> bool.
Variable clock : Z.
Variable chainValidator : list (Block Transaction) -> bool.

(** Modelled from the spec: the difficulty predicate of the validation
    collaborator, which is not in [blockchain.ts]: the hash, read as a
    binary string, has at least [difficulty] leading zero bits. *)
Definition hashMatchesDifficulty (h : string) (d : Z) : bool :=
  d <=? Z.of_nat (Hex.leading_zero_bits h).

(** Modelled from the spec: the new-block validator, which is not in
    [blockchain.ts]: the index is the latest index plus 1, the previous
    hash is the hash of the latest block, the stored hash is the digest
    of the other fields, it meets the stored difficulty, and the
    timestamp is in the acceptable window of the timestamp of the
    latest block and of the local clock.  Nothing is accepted on top of
    a missing latest block. *)
Definition isValidNewBlock (candidate : Block Transaction)
           (latest : option (Block Transaction)) : bool :=
  match latest with
  | None => false
  | Some l =>
      (index candidate =? index l + 1)
      && String.eqb (previousHash candidate) (hash l)
      && String.eqb (hash candidate)
           (digest (index candidate) (previousHash candidate)
                   (timestamp candidate) (data candidate)
                   (difficulty candidate) (nonce candidate))
      && hashMatchesDifficulty (hash candidate) (difficulty candidate)
      && acceptableTimestamp (timestamp l) (timestamp candidate) clock
  end.

(** Modelled from the spec: the payload applier, which is not in
    [blockchain.ts]: the records of the payload are applied in order to
    the balance set, and the payload fails when a record does (a double
    spend, a malformed reference). *)
Fixpoint processTransactions (payload : list Transaction)
         (u : list UnspentTxOut) (blockIndex : Z) : option (list UnspentTxOut) :=
  match payload with
  | [] => Some u
  | t :: rest =>
      match applyRecord t u blockIndex with
      | None => None
      | Some u' => processTransactions rest u' blockIndex
      end
  end.

Definition collaborators : Collaborators :=
  Build_Collaborators Transaction UnspentTxOut digest hashMatchesDifficulty
                      isValidNewBlock chainValidator processTransactions.

End Parameters.

End SpecModel.

(** ** An instance of the collaborators

    A small instance on which the operations can be run.  A transaction
    is an amount and the balance set is the list of amounts received so
    far.  The digest depends on the nonce only, and the chain validator
    checks the links between consecutive blocks. *)

Module Demo.

(** The difficulty predicate as the specification describes it: the
    hash, read as a binary string, has at least [difficulty] leading
    zero bits. *)
Definition hashMatchesDifficulty (h : string) (d : Z) : bool :=
  d <=? Z.of_nat (Hex.leading_zero_bits h).

Definition calculateHash (i : Z) (prev : string) (ts : Z) (payload : list Z)
           (d : Z) (n : Z) : string :=
  if 3 <=? n then "00f" else "ff".

Definition isValidNewBlock (b : Block Z) (latest : option (Block Z)) : bool :=
  match latest with
  | None => false
  | Some l =>
      (index b =? index l + 1)
      && String.eqb (previousHash b) (hash l)
      && String.eqb (hash b)
           (calculateHash (index b) (previousHash b) (timestamp b) (data b)
                          (difficulty b) (nonce b))
      && hashMatchesDifficulty (hash b) (difficulty b)
  end.

Fixpoint linked (chain : list (Block Z)) : bool :=
  match chain with
  | b0 :: rest =>
      match rest with
      | b1 :: _ => isValidNewBlock b1 (Some b0) && linked rest
      | [] => true
      end
  | [] => true
  end.

Definition isValidChain (chain : list (Block Z)) : bool :=
  match chain with
  | [] => false
  | _ :: _ => linked chain
  end.

Definition processTransactions (payload : list Z) (u : list Z) (i : Z)
  : option (list Z) :=
  if forallb (fun amount => 0 <=? amount) payload then Some (u ++ payload)
  else None.

Definition collaborators : Collaborators :=
  Build_Collaborators Z Z calculateHash hashMatchesDifficulty isValidNewBlock
                      isValidChain processTransactions.

(** Blocks and states of the examples. *)

Definition block1 : @block collaborators :=
  mkBlock 1 "ff" "816534932c2b7154836da6afc367695e6337db8a921823784c14378abed4f7d7"
          1588310950 [5] 0 0.

(** The chain a peer sends: the genesis block followed by [block1]. *)
Definition received : list (@block collaborators) := [genesisBlock; block1].

Definition badBlock : @block collaborators :=
  mkBlock 1 "ff" "stale" 1588310950 [5] 0 0.

Definition overdraft : @block collaborators :=
  mkBlock 1 "ff" "816534932c2b7154836da6afc367695e6337db8a921823784c14378abed4f7d7"
          1588310950 [-5] 0 0.

(** A block at position [i] with the given timestamp and difficulty. *)
Definition plain (i ts d : Z) : @block collaborators := mkBlock i "00f" "00f" ts [] d 3.

(** Eleven blocks, one second apart, the second of difficulty 7. *)
Definition eleven : list (@block collaborators) :=
  [plain 0 100 0; plain 1 101 7; plain 2 102 0; plain 3 103 0; plain 4 104 0;
   plain 5 105 0; plain 6 106 0; plain 7 107 0; plain 8 108 0; plain 9 109 0;
   plain 10 110 0].

(** Chain A and chain B of the comment in [replaceChain]. *)
Definition chainA : list (@block collaborators) :=
  [plain 0 100 4; plain 1 101 4; plain 2 102 4; plain 3 103 4; plain 4 104 5].

Definition chainB : list (@block collaborators) := [plain 0 100 6; plain 1 101 6].

End Demo.

(** ** A second instance

    As [Demo], with a chain validator that also compares the first
    block with the genesis block, field by field. *)

Module Strict.

Definition isGenesis (b : Block Z) : bool :=
  (index b =? 0)
  && String.eqb (hash b)
       "816534932c2b7154836da6afc367695e6337db8a921823784c14378abed4f7d7"
  && String.eqb (previousHash b) "0"
  && (timestamp b =? 1588310945)
  && match data b with [] => true | _ :: _ => false end
  && (difficulty b =? 0)
  && (nonce b =? 0).

Definition isValidChain (chain : list (Block Z)) : bool :=
  match chain with
  | [] => false
  | b0 :: _ => isGenesis b0 && Demo.linked chain
  end.

Definition collaborators : Collaborators :=
  Build_Collaborators Z Z Demo.calculateHash Demo.hashMatchesDifficulty
                      Demo.isValidNewBlock isValidChain Demo.processTransactions.

Definition block1 : @block collaborators :=
  mkBlock 1 "ff" "816534932c2b7154836da6afc367695e6337db8a921823784c14378abed4f7d7"
          1588310950 [5] 0 0.

Definition received : list (@block collaborators) := [genesisBlock; block1].

(** A second block, on top of [block1], and a block of difficulty 8
    on top of the genesis block. *)
Definition block2 : @block collaborators :=
  mkBlock 2 "ff" "ff" 1588310955 [] 0 0.

Definition heavy : @block collaborators :=
  mkBlock 1 "00f" "816534932c2b7154836da6afc367695e6337db8a921823784c14378abed4f7d7"
          1588310950 [] 8 3.

Definition short : list (@block collaborators) := [genesisBlock; heavy].

(** The clock and the timestamp window of the examples. *)
Definition clock : Z := 1588310950.

Definition acceptableTimestamp (previous candidate now : Z) : bool :=
  (previous - 60 <? candidate) && (candidate - 60 <? now).

Definition applyRecord (amount : Z) (u : list Z) (i : Z) : option (list Z) :=
  if 0 <=? amount then Some (u ++ [amount]) else None.

(** The collaborators of the specification with the digest of [Demo]. *)
Definition spec : Collaborators :=
  SpecModel.collaborators Z Z Demo.calculateHash applyRecord acceptableTimestamp
                          clock isValidChain.

End Strict.

(** ** A third instance

    As [Demo], with a chain validator that accepts every chain, the
    empty one included. *)

Module Lax.

Definition isValidChain (chain : list (Block Z)) : bool := true.

Definition collaborators : Collaborators :=
  Build_Collaborators Z Z Demo.calculateHash Demo.hashMatchesDifficulty
                      Demo.isValidNewBlock isValidChain Demo.processTransactions.

(** Chains with a block of difficulty 53. *)
Definition at53 : @block collaborators := mkBlock 1 "00f" "00f" 101 [] 53 3.

Definition at0 (i : Z) : @block collaborators := mkBlock i "00f" "00f" 102 [] 0 3.

Definition held53 : list (@block collaborators) := [genesisBlock; at53].

Definition longer53 : list (@block collaborators) :=
  [genesisBlock; at53; at0 2].

Definition held53000 : list (@block collaborators) :=
  [genesisBlock; at53; at0 2; at0 3; at0 4].

Definition lighter : list (@block collaborators) :=
  [genesisBlock; at0 1; at0 2; mkBlock 3 "00f" "00f" 101 [] 53 3].

Definition at1024 : @block collaborators := mkBlock 1 "00f" "00f" 101 [] 1024 3.

End Lax.

(** ** Properties *)

Section Properties.

Context {C : Collaborators}.

(** *** Arrays *)

Lemma index_of_last {A : Type} (l : list A) (x : A) :
  index_of (l ++ [x]) (length_of (l ++ [x]) - 1) = Some x.
Proof.
  unfold index_of, length_of.
  rewrite length_app; simpl.
  destruct (Z.ltb_spec (Z.of_nat (List.length l + 1) - 1) 0) as [Hneg | _]; [lia |].
  replace (Z.to_nat (Z.of_nat (List.length l + 1) - 1)) with (List.length l) by lia.
  rewrite nth_error_app2 by lia.
  now rewrite Nat.sub_diag.
Qed.

Lemma latest_of_nonempty {A : Type} (l : list A) :
  l <> [] -> exists x, index_of l (length_of l - 1) = Some x.
Proof.
  intros Hne.
  destruct (exists_last Hne) as (front & x & ->).
  exists x. apply index_of_last.
Qed.

(** *** Doubles *)

Lemma representable_nonneg (n : Z) : representable n -> 0 <= n.
Proof.
  intros (q & k & Hk & Hq & ->).
  apply Z.mul_nonneg_nonneg; [lia | apply Z.pow_nonneg; lia].
Qed.

Lemma representable_small (n : Z) : 0 <= n < 2 ^ 53 -> representable n.
Proof. intros Hn. exists n, 0. rewrite Z.pow_0_r. lia. Qed.

Lemma log2_small (n : Z) : Z.log2 n - 52 <= 0 -> n < 2 ^ 53.
Proof.
  intros Hlog.
  destruct (Z_le_gt_dec n 0) as [Hn | Hn]; [lia |].
  apply Z.log2_lt_pow2; lia.
Qed.

(** The excess of a representable number divides it. *)
Lemma representable_divides (n : Z) :
  representable n -> 0 < Z.log2 n - 52 -> n mod 2 ^ (Z.log2 n - 52) = 0.
Proof.
  intros (q & k & Hk & Hq & ->) Hexcess.
  assert (Hqpos : 0 < q).
  { destruct (Z.eq_dec q 0) as [-> | Hne]; [| lia].
    rewrite Z.mul_0_l in Hexcess. simpl in Hexcess. lia. }
  set (e := Z.log2 (q * 2 ^ k) - 52) in *.
  assert (Hlog : Z.log2 (q * 2 ^ k) = Z.log2 q + k).
  { rewrite Z.log2_mul_pow2 by lia. lia. }
  assert (Hq52 : Z.log2 q <= 52).
  { assert (Z.log2 q < 53) by (apply Z.log2_lt_pow2; lia). lia. }
  assert (He : e <= k) by (unfold e; lia).
  replace k with ((k - e) + e) by lia.
  rewrite Z.pow_add_r by lia.
  rewrite Z.mul_assoc.
  apply Z.mod_mul.
  apply Z.pow_nonzero; lia.
Qed.

Lemma round_exact (n : Z) :
  representable n -> n < 2 ^ 2098 -> round n = Finite n.
Proof.
  intros Hrep Hbound.
  unfold round.
  destruct (Z.leb_spec (Z.log2 n - 52) 0) as [Hsmall | Hexcess]; [reflexivity |].
  pose proof (representable_divides n Hrep Hexcess) as Hmod.
  set (e := Z.log2 n - 52) in *.
  assert (Hpow : 0 < 2 ^ e) by (apply Z.pow_pos_nonneg; lia).
  assert (Hhalf : 0 < 2 ^ (e - 1)) by (apply Z.pow_pos_nonneg; lia).
  rewrite Hmod.
  destruct (Z.ltb_spec 0 (2 ^ (e - 1))) as [_ | Hbad]; [| lia].
  assert (Hdiv : n / 2 ^ e * 2 ^ e = n).
  { pose proof (Z.div_mod n (2 ^ e)). lia. }
  rewrite Hdiv.
  destruct (Z.leb_spec (2 ^ 2098) n); [lia | reflexivity].
Qed.

(** The significand of the rounded number and its bounds. *)
Lemma round_cases (n : Z) :
  0 < Z.log2 n - 52 ->
  exists q' : Z,
    n / 2 ^ (Z.log2 n - 52) <= q' <= 2 ^ 53
    /\ (round n = Infinity \/
        (round n = Finite (q' * 2 ^ (Z.log2 n - 52))
         /\ q' * 2 ^ (Z.log2 n - 52) < 2 ^ 2098)).
Proof.
  intros Hexcess.
  unfold round.
  destruct (Z.leb_spec (Z.log2 n - 52) 0) as [Hsmall | _]; [lia |].
  set (e := Z.log2 n - 52) in *.
  assert (Hn : 0 < n).
  { destruct (Z_le_gt_dec n 0) as [Hn | Hn]; [| lia].
    unfold e in Hexcess. rewrite Z.log2_nonpos in Hexcess by lia. lia. }
  assert (Hpow : 0 < 2 ^ e) by (apply Z.pow_pos_nonneg; lia).
  assert (Hq : n / 2 ^ e < 2 ^ 53).
  { apply Z.div_lt_upper_bound; [lia |].
    rewrite <- Z.pow_add_r by lia.
    replace (e + 53) with (Z.succ (Z.log2 n)) by (unfold e; lia).
    apply Z.log2_spec. lia. }
  set (q := n / 2 ^ e) in *.
  set (q' := if n mod 2 ^ e <? 2 ^ (e - 1) then q
             else if 2 ^ (e - 1) <? n mod 2 ^ e then q + 1
                  else if Z.even q then q else q + 1).
  assert (Hq' : q <= q' <= 2 ^ 53).
  { unfold q'.
    destruct (_ <? _); [lia |].
    destruct (_ <? _); [lia |].
    destruct (Z.even q); lia. }
  exists q'. split; [exact Hq' |].
  destruct (Z.leb_spec (2 ^ 2098) (q' * 2 ^ e)); [now left | right].
  split; [reflexivity | lia].
Qed.

Lemma round_wf (n : Z) : 0 <= n -> wf (round n).
Proof.
  intros Hn.
  destruct (Z_le_gt_dec (Z.log2 n - 52) 0) as [Hsmall | Hexcess].
  - unfold round.
    destruct (Z.leb_spec (Z.log2 n - 52) 0) as [_ | Hbad]; [| lia].
    pose proof (log2_small n Hsmall) as Hlt.
    split; [apply representable_small; lia |].
    assert (2 ^ 53 < 2 ^ 2098) by (apply Z.pow_lt_mono_r; lia). lia.
  - destruct (round_cases n) as (q' & [Hlow Hhigh] & [-> | [-> Hbound]]);
      [lia | exact I |].
    set (e := Z.log2 n - 52) in *.
    assert (Hq0 : 0 <= n / 2 ^ e).
    { apply Z.div_pos; [lia | apply Z.pow_pos_nonneg; lia]. }
    split; [| exact Hbound].
    destruct (Z.eq_dec q' (2 ^ 53)) as [-> | Hne].
    + exists (2 ^ 52), (e + 1).
      split; [lia |]. split.
      * split; [apply Z.pow_nonneg; lia | apply Z.pow_lt_mono_r; lia].
      * rewrite (Z.pow_add_r 2 e 1) by lia.
        change (2 ^ 53) with (2 ^ 52 * 2). change (2 ^ 1) with 2. ring.
    + exists q', e. repeat split; lia.
Qed.

(** Rounding never goes below a double that the exact number exceeds. *)
Lemma round_above (m n : Z) :
  representable m -> m <= n -> below (Finite m) (round n).
Proof.
  intros Hrep Hle.
  pose proof (representable_nonneg m Hrep) as Hm.
  unfold below.
  destruct (Z_le_gt_dec (Z.log2 n - 52) 0) as [Hsmall | Hexcess].
  - unfold round.
    destruct (Z.leb_spec (Z.log2 n - 52) 0) as [_ | Hbad]; [| lia].
    simpl. apply Z.ltb_ge. exact Hle.
  - destruct (round_cases n) as (q' & [Hlow Hhigh] & [-> | [-> Hbound]]);
      [lia | reflexivity |].
    simpl. apply Z.ltb_ge.
    set (e := Z.log2 n - 52) in *.
    assert (Hn : 0 < n).
    { destruct (Z_le_gt_dec n 0) as [Hn | Hn]; [| lia].
      unfold e in Hexcess. rewrite Z.log2_nonpos in Hexcess by lia. lia. }
    assert (Hpow : 0 < 2 ^ e) by (apply Z.pow_pos_nonneg; lia).
    apply Z.le_trans with (n / 2 ^ e * 2 ^ e);
      [| apply Z.mul_le_mono_nonneg_r; lia].
    destruct Hrep as (q & k & Hk & Hq & ->).
    destruct (Z_le_gt_dec e k) as [Hek | Hke].
    + (* [m] is a multiple of the unit of the result *)
      replace k with ((k - e) + e) in * by lia.
      rewrite Z.pow_add_r in * by lia.
      rewrite Z.mul_assoc in *.
      apply Z.mul_le_mono_nonneg_r; [lia |].
      apply Z.div_le_lower_bound; [lia |]. lia.
    + (* [m] lies below the binade of [n] *)
      apply Z.le_trans with (2 ^ 52 * 2 ^ e).
      * apply Z.le_trans with (2 ^ 53 * 2 ^ k).
        { apply Z.mul_le_mono_nonneg_r; [apply Z.pow_nonneg; lia | lia]. }
        rewrite <- !Z.pow_add_r by lia.
        apply Z.pow_le_mono_r; lia.
      * apply Z.mul_le_mono_nonneg_r; [lia |].
        apply Z.div_le_lower_bound; [lia |].
        rewrite Z.mul_comm, <- Z.pow_add_r by lia.
        replace (52 + e) with (Z.log2 n) by (unfold e; lia).
        apply Z.log2_spec. lia.
Qed.

Lemma greater_irrefl (a : number) : greater a a = false.
Proof. destruct a as [n |]; simpl; [apply Z.ltb_irrefl | reflexivity]. Qed.

Lemma below_refl (a : number) : below a a.
Proof. apply greater_irrefl. Qed.

Lemma below_trans (a b c : number) : below a b -> below b c -> below a c.
Proof.
  unfold below.
  destruct a as [x |], b as [y |], c as [z |]; simpl; try congruence.
  rewrite !Z.ltb_ge. lia.
Qed.

Lemma greater_not_below (a b : number) : greater a b = true -> ~ below a b.
Proof. unfold below. congruence. Qed.

Lemma pow2_wf (d : Z) : wf (pow2 d).
Proof.
  unfold pow2.
  destruct (Z.ltb_spec d (-1074)).
  - split; [apply representable_small; split; [lia | apply Z.pow_pos_nonneg; lia] |].
    apply Z.pow_pos_nonneg; lia.
  - destruct (Z.ltb_spec 1023 d); [exact I |].
    split.
    + exists 1, (d + 1074). repeat split; lia.
    + apply Z.pow_lt_mono_r; lia.
Qed.

Lemma add_wf (a b : number) : wf a -> wf b -> wf (add a b).
Proof.
  destruct a as [x |], b as [y |]; simpl; try (intros; exact I).
  intros [Hx _] [Hy _].
  apply round_wf.
  pose proof (representable_nonneg x Hx). pose proof (representable_nonneg y Hy). lia.
Qed.

(** Adding a double never gives less. *)
Lemma add_above (a b : number) : wf a -> wf b -> below a (add a b).
Proof.
  destruct a as [x |], b as [y |]; simpl; try reflexivity.
  intros [Hx _] [Hy _].
  apply round_above; [exact Hx |].
  pose proof (representable_nonneg y Hy). lia.
Qed.

Lemma fold_add_wf (terms : list number) :
  Forall wf terms -> forall a, wf a -> wf (fold_left add terms a).
Proof.
  induction 1 as [| t terms Ht _ IH]; intros a Ha; simpl; [exact Ha |].
  apply IH. now apply add_wf.
Qed.

Lemma fold_add_above (terms : list number) :
  Forall wf terms -> forall a, wf a -> below a (fold_left add terms a).
Proof.
  induction 1 as [| t terms Ht _ IH]; intros a Ha; simpl; [apply below_refl |].
  apply below_trans with (add a t); [now apply add_above |].
  apply IH. now apply add_wf.
Qed.

(** Whole numbers below 2^53 are added without rounding. *)
Lemma ofZ_add (s t : Z) :
  0 <= s -> 0 <= t -> s + t < 2 ^ 53 -> add (ofZ s) (ofZ t) = ofZ (s + t).
Proof.
  intros Hs Ht Hsum.
  unfold ofZ, add.
  rewrite <- Z.mul_add_distr_r.
  apply round_exact.
  - exists (s + t), 1074. repeat split; lia.
  - change 2098 with (1024 + 1074). rewrite Z.pow_add_r by lia.
    apply Z.mul_lt_mono_pos_r; [apply Z.pow_pos_nonneg; lia |].
    assert (2 ^ 53 < 2 ^ 1024) by (apply Z.pow_lt_mono_r; lia). lia.
Qed.

Lemma pow2_ofZ (d : Z) : 0 <= d <= 1023 -> pow2 d = ofZ (2 ^ d).
Proof.
  intros Hd. unfold pow2, ofZ.
  destruct (Z.ltb_spec d (-1074)); [lia |].
  destruct (Z.ltb_spec 1023 d); [lia |].
  now rewrite Z.pow_add_r by lia.
Qed.

Lemma greater_ofZ (a b : Z) : greater (ofZ a) (ofZ b) = (b <? a).
Proof.
  unfold ofZ. simpl.
  assert (Hpow : 0 < 2 ^ 1074) by (apply Z.pow_pos_nonneg; lia).
  destruct (Z.ltb_spec b a) as [Hlt | Hge].
  - apply Z.ltb_lt. now apply Z.mul_lt_mono_pos_r.
  - apply Z.ltb_ge. apply Z.mul_le_mono_nonneg_r; lia.
Qed.

(** Sums at the edge of the 53 bits of the significand, and the ends
    of the range of [Math.pow]. *)
Example add_rounds :
  add (ofZ (2 ^ 53)) (ofZ 1) = ofZ (2 ^ 53)
  /\ add (ofZ (2 ^ 53)) (ofZ 3) = ofZ (2 ^ 53 + 4)
  /\ add (ofZ (2 ^ 53 + 2)) (ofZ 1) = ofZ (2 ^ 53 + 4)
  /\ add (pow2 1023) (pow2 1023) = Infinity
  /\ add (pow2 (-1074)) (pow2 (-1074)) = pow2 (-1073)
  /\ pow2 (-1075) = Finite 0
  /\ pow2 1024 = Infinity
  /\ pow2 0 = ofZ 1.
Proof. vm_compute. repeat split. Qed.

(** *** Accumulated difficulty *)

Lemma getAccumulatedDifficulty_cons (b : block) (rest : list block) :
  getAccumulatedDifficulty (b :: rest)
  = Ret (fold_left add (map pow2 (map difficulty rest)) (pow2 (difficulty b))).
Proof. reflexivity. Qed.

Lemma accumulated_defined (chain : list block) :
  chain <> [] -> exists w, getAccumulatedDifficulty chain = Ret w.
Proof.
  destruct chain as [| b rest]; [congruence |].
  intros _. eexists. apply getAccumulatedDifficulty_cons.
Qed.

Lemma accumulated_nonempty (chain : list block) (w : number) :
  getAccumulatedDifficulty chain = Ret w -> chain <> [].
Proof. intros Hw ->. discriminate. Qed.

Lemma terms_wf (ds : list Z) : Forall wf (map pow2 ds).
Proof.
  induction ds as [| d ds IH]; simpl; constructor; [apply pow2_wf | exact IH].
Qed.

Lemma accumulated_wf (chain : list block) (w : number) :
  getAccumulatedDifficulty chain = Ret w -> wf w.
Proof.
  destruct chain as [| b rest]; [discriminate |].
  rewrite getAccumulatedDifficulty_cons. intros [= <-].
  apply fold_add_wf; [apply terms_wf | apply pow2_wf].
Qed.

(** The accumulated difficulty of a chain is never below that of one
    of its prefixes. *)
Lemma accumulated_app (front back : list block) (a b : number) :
  getAccumulatedDifficulty front = Ret a ->
  getAccumulatedDifficulty (front ++ back) = Ret b ->
  below a b.
Proof.
  intros Ha Hb.
  pose proof (accumulated_wf front a Ha) as Hwf.
  destruct front as [| x front]; [discriminate |].
  simpl app in Hb.
  rewrite getAccumulatedDifficulty_cons in Ha, Hb.
  injection Ha as <-. injection Hb as <-.
  rewrite !map_app, fold_left_app.
  apply fold_add_above; [apply terms_wf | exact Hwf].
Qed.

Lemma greater_asym (a b : number) : greater a b = true -> below b a.
Proof.
  unfold below.
  destruct a as [x |], b as [y |]; simpl; try congruence.
  rewrite Z.ltb_lt, Z.ltb_ge. lia.
Qed.

(** *** Sums without rounding *)

Lemma workZ_nonneg (chain : list block) : 0 <= workZ chain.
Proof.
  induction chain as [| b rest IH]; simpl; [lia |].
  pose proof (Z.pow_nonneg 2 (difficulty b)). lia.
Qed.

Lemma workZ_app (front back : list block) :
  workZ (front ++ back) = workZ front + workZ back.
Proof. induction front as [| b rest IH]; simpl; lia. Qed.

Lemma workZ_pos (chain : list block) :
  Forall (fun b => 0 <= difficulty b) chain -> chain <> [] -> 0 < workZ chain.
Proof.
  intros Hd Hne.
  destruct chain as [| b rest]; [congruence |].
  inversion Hd; subst. simpl.
  pose proof (workZ_nonneg rest).
  assert (0 < 2 ^ difficulty b) by (apply Z.pow_pos_nonneg; lia). lia.
Qed.

Lemma cumulativeWork_workZ (chain : list block) :
  Forall (fun b => 0 <= difficulty b) chain ->
  (cumulativeWork chain == inject_Z (workZ chain))%Q.
Proof.
  induction 1 as [| b rest Hb _ IH]; simpl.
  - reflexivity.
  - rewrite IH, inject_Z_plus, (Zpower_Qpower 2 (difficulty b) Hb).
    reflexivity.
Qed.

Lemma exactlySummable_workZ (chain : list block) :
  exactlySummable chain ->
  Forall (fun b => 0 <= difficulty b) chain /\ workZ chain < 2 ^ 53.
Proof.
  intros [Hd Hwork]. split; [exact Hd |].
  rewrite (cumulativeWork_workZ chain Hd) in Hwork.
  now rewrite <- Zlt_Qlt in Hwork.
Qed.

Lemma exactlySummable_front (front back : list block) :
  exactlySummable (front ++ back) -> exactlySummable front.
Proof.
  intros Hsum.
  destruct (exactlySummable_workZ _ Hsum) as [Hd Hwork].
  apply Forall_app in Hd as [Hfront Hback].
  split; [exact Hfront |].
  rewrite (cumulativeWork_workZ front Hfront), <- Zlt_Qlt.
  rewrite workZ_app in Hwork. pose proof (workZ_nonneg back). lia.
Qed.

Lemma difficulty_small (d s : Z) :
  0 <= d -> 0 <= s -> s + 2 ^ d < 2 ^ 53 -> d <= 1023.
Proof.
  intros Hd Hs Hlt.
  assert (Hpow : 2 ^ d < 2 ^ 53) by lia.
  apply Z.pow_lt_mono_r_iff in Hpow; lia.
Qed.

Lemma fold_add_exact (rest : list block) :
  forall s : Z,
    0 <= s ->
    Forall (fun b => 0 <= difficulty b) rest ->
    s + workZ rest < 2 ^ 53 ->
    fold_left add (map pow2 (map difficulty rest)) (ofZ s) = ofZ (s + workZ rest).
Proof.
  induction rest as [| b rest IH]; intros s Hs Hd Hlt; cbn [map fold_left workZ].
  - now rewrite Z.add_0_r.
  - inversion Hd as [| b' rest' Hb Hrest]; subst.
    cbn [workZ] in Hlt.
    pose proof (workZ_nonneg rest) as Hw.
    assert (Hpos : 0 < 2 ^ difficulty b) by (apply Z.pow_pos_nonneg; lia).
    rewrite pow2_ofZ by (split; [lia | apply (difficulty_small _ s); lia]).
    rewrite ofZ_add by lia.
    rewrite IH; [| lia | exact Hrest | lia].
    f_equal. lia.
Qed.

(** On a chain that is summed without rounding the accumulated
    difficulty is the double of the cumulative work. *)
Lemma accumulated_exact (chain : list block) :
  chain <> [] ->
  exactlySummable chain ->
  getAccumulatedDifficulty chain = Ret (ofZ (workZ chain)).
Proof.
  intros Hne Hsum.
  destruct (exactlySummable_workZ chain Hsum) as [Hd Hlt].
  destruct chain as [| b rest]; [congruence |].
  inversion Hd as [| b' rest' Hb Hrest]; subst.
  cbn [workZ] in Hlt |- *.
  pose proof (workZ_nonneg rest) as Hw.
  assert (Hpos : 0 < 2 ^ difficulty b) by (apply Z.pow_pos_nonneg; lia).
  rewrite getAccumulatedDifficulty_cons.
  rewrite pow2_ofZ by (split; [lia | apply (difficulty_small _ 0); lia]).
  rewrite fold_add_exact; [| lia | exact Hrest | lia].
  reflexivity.
Qed.

Lemma exactly_ofZ (chain : list block) :
  Forall (fun b => 0 <= difficulty b) chain ->
  exactly (cumulativeWork chain) (ofZ (workZ chain)).
Proof.
  intros Hd. unfold exactly, ofZ.
  now rewrite inject_Z_mult, (cumulativeWork_workZ chain Hd).
Qed.

Lemma workZ_uniform (d : Z) (chain : list block) :
  Forall (fun b => difficulty b = d) chain ->
  workZ chain = length_of chain * 2 ^ d.
Proof.
  induction 1 as [| b rest Hb _ IH]; cbn [workZ].
  - reflexivity.
  - rewrite IH, Hb. unfold length_of. simpl List.length.
    rewrite Nat2Z.inj_succ. ring.
Qed.

(** *** Running the operations *)

Lemma addBlockToChain_run (b : block) (st : State) :
  addBlockToChain b st
  = if isValidNewBlock b (getLatestBlock st) then
      match processTransactions (data b) (unspentTxOuts st) (index b) with
      | None => (Ret false, st)
      | Some u => (Ret true, set_unspentTxOuts u (push b st))
      end
    else (Ret false, st).
Proof.
  unfold addBlockToChain, bind, gets, modify, ret.
  destruct (isValidNewBlock b (getLatestBlock st)); [| reflexivity].
  now destruct (processTransactions (data b) (unspentTxOuts st) (index b)).
Qed.

Lemma replaceChain_run (candidate : list block) (st : State) :
  replaceChain candidate st
  = if isValidChain candidate then
      match getAccumulatedDifficulty candidate with
      | Ret received =>
          match getAccumulatedDifficulty (blockchain st) with
          | Ret held =>
              if greater received held
              then (Ret tt, broadcastLatest (set_blockchain candidate st))
              else (Ret tt, st)
          | Throw e => (Throw e, st)
          | OutOfFuel => (OutOfFuel, st)
          end
      | Throw e => (Throw e, st)
      | OutOfFuel => (OutOfFuel, st)
      end
    else (Ret tt, st).
Proof.
  unfold replaceChain, bind, lift, gets, modify, ret, getBlockchain.
  destruct (isValidChain candidate); [| reflexivity].
  destruct (getAccumulatedDifficulty candidate) as [received | e |]; try reflexivity.
  destruct (getAccumulatedDifficulty (blockchain st)) as [held | e |]; try reflexivity.
  now destruct (greater received held).
Qed.

Lemma generateNextBlock_run (fuel : nat) (now : Z) (payload : list Transaction)
      (st : State) :
  generateNextBlock fuel now payload st
  = match getLatestBlock st with
    | None => (Throw TypeError, st)
    | Some previousBlock =>
        match getDifficulty st (blockchain st) with
        | Ret d =>
            match findBlock fuel (index previousBlock + 1) (hash previousBlock)
                            now payload d with
            | None => (OutOfFuel, st)
            | Some newBlock =>
                match addBlockToChain newBlock st with
                | (Ret true, st') => (Ret (Some newBlock), broadcastLatest st')
                | (Ret false, st') => (Ret None, st')
                | (Throw e, st') => (Throw e, st')
                | (OutOfFuel, st') => (OutOfFuel, st')
                end
            end
        | Throw e => (Throw e, st)
        | OutOfFuel => (OutOfFuel, st)
        end
    end.
Proof.
  unfold generateNextBlock, bind, gets, lift, reads, modify, ret, getBlockchain.
  destruct (getLatestBlock st) as [previousBlock |]; simpl; [| reflexivity].
  destruct (getDifficulty st (blockchain st)) as [d | e |]; try reflexivity.
  destruct (findBlock fuel (index previousBlock + 1) (hash previousBlock) now payload d)
    as [newBlock |]; [| reflexivity].
  destruct (addBlockToChain newBlock st) as [[[|] | e |] st']; reflexivity.
Qed.

(** [replaceChain] never assigns [unspentTxOuts]. *)
Lemma replaceChain_keeps_unspentTxOuts (candidate : list block) (st : State) :
  unspentTxOuts (state_after (replaceChain candidate) st) = unspentTxOuts st.
Proof.
  unfold state_after. rewrite replaceChain_run.
  destruct (isValidChain candidate); [| reflexivity].
  destruct (getAccumulatedDifficulty candidate) as [received | e |]; try reflexivity.
  destruct (getAccumulatedDifficulty (blockchain st)) as [held | e |]; try reflexivity.
  now destruct (greater received held).
Qed.

(** *** The test of the fork choice *)

Lemma replaceChain_state (candidate : list block) (st : State) :
  state_after (replaceChain candidate) st = st
  \/ (preferred candidate st
      /\ state_after (replaceChain candidate) st
         = broadcastLatest (set_blockchain candidate st)).
Proof.
  unfold state_after, preferred, getBlockchain. rewrite replaceChain_run.
  destruct (isValidChain candidate); [| now left].
  destruct (getAccumulatedDifficulty candidate) as [received | e |];
    try now left.
  destruct (getAccumulatedDifficulty (blockchain st)) as [held | e |];
    try now left.
  destruct (greater received held) eqn:Hgt; [right | now left].
  split; [| reflexivity].
  split; [reflexivity |].
  now exists received, held.
Qed.

Lemma replaceChain_preferred (candidate : list block) (st : State) :
  preferred candidate st -> installs candidate st.
Proof.
  intros (Hvalid & received & held & Hreceived & Hheld & Hgt).
  unfold installs, state_after. unfold getBlockchain in Hheld.
  now rewrite replaceChain_run, Hvalid, Hreceived, Hheld, Hgt.
Qed.

Lemma replaceChain_not_preferred (candidate : list block) (st : State) :
  ~ preferred candidate st -> state_after (replaceChain candidate) st = st.
Proof.
  intros Hnot.
  destruct (replaceChain_state candidate st) as [Hsame | [Hpref _]];
    [exact Hsame | contradiction].
Qed.

Lemma installs_changes (candidate : list block) (st : State) :
  installs candidate st -> state_after (replaceChain candidate) st <> st.
Proof.
  unfold installs. intros -> Hsame.
  apply (f_equal broadcasts) in Hsame. simpl in Hsame. lia.
Qed.

(** On chains that are summed without rounding the test compares the
    cumulative work. *)
Lemma preferred_heavier (candidate : list block) (st : State) :
  blockchain st <> [] ->
  exactlySummable candidate ->
  exactlySummable (blockchain st) ->
  (preferred candidate st <-> heavier candidate st).
Proof.
  intros Hne Hcand Hcur.
  pose proof (accumulated_exact (blockchain st) Hne Hcur) as Hheld.
  destruct (exactlySummable_workZ _ Hcand) as [Hdc _].
  destruct (exactlySummable_workZ _ Hcur) as [Hdk _].
  assert (Hlt : (cumulativeWork (blockchain st) < cumulativeWork candidate)%Q
                <-> workZ (blockchain st) < workZ candidate).
  { rewrite (cumulativeWork_workZ _ Hdc), (cumulativeWork_workZ _ Hdk).
    now rewrite <- Zlt_Qlt. }
  unfold heavier. rewrite Hlt.
  destruct candidate as [| b rest].
  - split.
    + intros (_ & received & _ & Hreceived & _). discriminate.
    + intros [_ Hwork]. simpl in Hwork.
      pose proof (workZ_nonneg (blockchain st)). lia.
  - pose proof (accumulated_exact (b :: rest) ltac:(discriminate) Hcand)
      as Hreceived.
    split.
    + intros (Hvalid & received & held & Hr & Hh & Hgt).
      unfold getBlockchain in Hh.
      rewrite Hreceived in Hr. rewrite Hheld in Hh.
      injection Hr as <-. injection Hh as <-.
      rewrite greater_ofZ in Hgt. apply Z.ltb_lt in Hgt.
      now split.
    + intros [Hvalid Hwork].
      split; [exact Hvalid |].
      exists (ofZ (workZ (b :: rest))), (ofZ (workZ (blockchain st))).
      repeat split; try assumption.
      rewrite greater_ofZ. now apply Z.ltb_lt.
Qed.

(** C1: for a non-empty canonical chain, [replaceChain] installs the
    candidate if and only if the chain validator accepts it and the
    accumulated difficulty that [getAccumulatedDifficulty] computes for
    it, in doubles, is strictly greater than the one it computes for
    the canonical chain; the canonical chain is then the candidate, and
    otherwise the state is left as it was.  When both chains are summed
    without rounding (difficulties not negative, cumulative work below
    2^53) the test is that the cumulative work of the candidate is
    strictly greater. *)
Theorem replaceChain_fork_choice (st : State) (candidate : list block) :
  blockchain st <> [] ->
  (installs candidate st <-> preferred candidate st)
  /\ (preferred candidate st ->
      blockchain (state_after (replaceChain candidate) st) = candidate)
  /\ (~ preferred candidate st -> state_after (replaceChain candidate) st = st)
  /\ (exactlySummable candidate ->
      exactlySummable (blockchain st) ->
      (installs candidate st <-> heavier candidate st)).
Proof.
  intros Hne.
  assert (Hiff : installs candidate st <-> preferred candidate st).
  { split; [| apply replaceChain_preferred].
    intros Hinst.
    destruct (replaceChain_state candidate st) as [Hsame | [Hpref _]];
      [| exact Hpref].
    now destruct (installs_changes candidate st Hinst). }
  split; [exact Hiff |].
  split; [| split].
  - intros Hpref.
    now rewrite (replaceChain_preferred candidate st Hpref).
  - apply replaceChain_not_preferred.
  - intros Hcand Hcur.
    rewrite Hiff. now apply preferred_heavier.
Qed.

(** *** Appending a block *)

(** C3: when [addBlockToChain] returns false, which it does when the
    new-block validator rejects the candidate and when the payload
    applier answers null, and only then, the chain and the balance
    set (the whole state) are as they were before the call. *)
Theorem addBlockToChain_rejects_atomically (b : block) (st : State) :
  (isValidNewBlock b (getLatestBlock st) = false ->
   addBlockToChain b st = (Ret false, st))
  /\ (processTransactions (data b) (unspentTxOuts st) (index b) = None ->
      addBlockToChain b st = (Ret false, st))
  /\ (result_of (addBlockToChain b) st = Ret false ->
      state_after (addBlockToChain b) st = st
      /\ blockchain (state_after (addBlockToChain b) st) = blockchain st
      /\ unspentTxOuts (state_after (addBlockToChain b) st) = unspentTxOuts st
      /\ (isValidNewBlock b (getLatestBlock st) = false
          \/ processTransactions (data b) (unspentTxOuts st) (index b) = None)).
Proof.
  unfold result_of, state_after.
  rewrite addBlockToChain_run.
  destruct (isValidNewBlock b (getLatestBlock st)).
  - destruct (processTransactions (data b) (unspentTxOuts st) (index b)) as [u |].
    + repeat split; discriminate.
    + repeat split; auto.
  - repeat split; auto.
Qed.

(** C4: when the new-block validator accepts the candidate against the
    latest block and the payload applier answers a balance set,
    [addBlockToChain] returns true, the chain is the old one followed
    by the candidate (so one block longer), [getLatestBlock] returns
    the candidate, and the balance set is the one just derived. *)
Theorem addBlockToChain_appends (b : block) (st : State)
        (u : list UnspentTxOut) :
  isValidNewBlock b (getLatestBlock st) = true ->
  processTransactions (data b) (unspentTxOuts st) (index b) = Some u ->
  result_of (addBlockToChain b) st = Ret true
  /\ blockchain (state_after (addBlockToChain b) st) = blockchain st ++ [b]
  /\ length_of (blockchain (state_after (addBlockToChain b) st))
     = (length_of (blockchain st) + 1)%Z
  /\ getLatestBlock (state_after (addBlockToChain b) st) = Some b
  /\ unspentTxOuts (state_after (addBlockToChain b) st) = u.
Proof.
  intros Hvalid Hpayload.
  unfold result_of, state_after.
  rewrite addBlockToChain_run, Hvalid, Hpayload. simpl.
  repeat split.
  - unfold length_of. rewrite length_app. simpl. lia.
  - unfold getLatestBlock. simpl. apply index_of_last.
Qed.

(** *** Mining *)

Section Mining.

Variables (index0 : Z) (previousHash0 : string) (timestamp0 : Z)
          (data0 : list Transaction) (difficulty0 : Z).

Local Abbreviation matches :=
  (nonceMeets index0 previousHash0 timestamp0 data0 difficulty0).

Lemma findBlock_from_sound (fuel : nat) :
  forall (n0 : Z) (b : block),
    findBlock_from fuel n0 index0 previousHash0 timestamp0 data0 difficulty0 = Some b ->
    index b = index0 /\ previousHash b = previousHash0 /\ timestamp b = timestamp0
    /\ data b = data0 /\ difficulty b = difficulty0
    /\ hash b = calculateHash index0 previousHash0 timestamp0 data0 difficulty0 (nonce b)
    /\ matches (nonce b) = true
    /\ (n0 <= nonce b < n0 + Z.of_nat fuel)%Z
    /\ forall m : Z, (n0 <= m < nonce b)%Z -> matches m = false.
Proof.
  induction fuel as [| fuel IH]; intros n0 b; cbn [findBlock_from]; [discriminate |].
  fold (matches n0).
  destruct (matches n0) eqn:Hn0.
  - intros Hrun. inversion Hrun; subst b; clear Hrun.
    cbn [index hash previousHash timestamp data difficulty nonce].
    repeat split; try lia; try assumption.
  - intros Hrun.
    destruct (IH _ _ Hrun) as (Hi & Hp & Ht & Hd & Hdiff & Hh & Hm & Hrange & Hmin).
    repeat split; try assumption; try lia.
    intros m Hm'.
    destruct (Z.eq_dec m n0) as [-> | Hne]; [assumption |].
    apply Hmin. lia.
Qed.

Lemma findBlock_from_finds (k : nat) :
  forall (n0 : Z) (fuel : nat),
    matches (n0 + Z.of_nat k) = true ->
    (k < fuel)%nat ->
    exists b, findBlock_from fuel n0 index0 previousHash0 timestamp0 data0 difficulty0
              = Some b.
Proof.
  induction k as [| k IH]; intros n0 fuel Hmatch Hfuel.
  - destruct fuel as [| fuel]; [lia |]. simpl.
    fold (matches n0).
    replace (n0 + Z.of_nat 0)%Z with n0 in Hmatch by lia.
    rewrite Hmatch. now eexists.
  - destruct fuel as [| fuel]; [lia |]. simpl.
    fold (matches n0).
    destruct (matches n0); [now eexists |].
    apply IH; [| lia].
    now replace (n0 + 1 + Z.of_nat k)%Z with (n0 + Z.of_nat (S k))%Z by lia.
Qed.

Lemma findBlock_from_more_fuel (fuel : nat) :
  forall (n0 : Z) (b : block) (fuel' : nat),
    findBlock_from fuel n0 index0 previousHash0 timestamp0 data0 difficulty0 = Some b ->
    (fuel <= fuel')%nat ->
    findBlock_from fuel' n0 index0 previousHash0 timestamp0 data0 difficulty0 = Some b.
Proof.
  induction fuel as [| fuel IH]; intros n0 b fuel'; simpl; [discriminate |].
  intros Hrun Hle.
  destruct fuel' as [| fuel']; [lia |]. simpl.
  fold (matches n0) in Hrun |- *.
  destruct (matches n0); [assumption |].
  apply IH; [assumption | lia].
Qed.

(** C8: whenever the nonce search of [findBlock] ends, the block it
    returns has the given index, previous hash, timestamp, payload and
    difficulty, its hash is the digest of these with the returned nonce
    and meets the difficulty, and the nonce is the first one, counting
    up from 0 in steps of 1, whose digest does; and the search does end
    as soon as some nonce from 0 on has such a digest. *)
Theorem findBlock_mines :
  (forall (fuel : nat) (b : block),
      findBlock fuel index0 previousHash0 timestamp0 data0 difficulty0 = Some b ->
      mined index0 previousHash0 timestamp0 data0 difficulty0 b)
  /\ (forall n : Z,
        (0 <= n)%Z ->
        hashMatchesDifficulty
          (calculateHash index0 previousHash0 timestamp0 data0 difficulty0 n)
          difficulty0 = true ->
        exists b : block,
          (forall fuel : nat,
              (Z.to_nat n < fuel)%nat ->
              findBlock fuel index0 previousHash0 timestamp0 data0 difficulty0
              = Some b)
          /\ mined index0 previousHash0 timestamp0 data0 difficulty0 b
          /\ (nonce b <= n)%Z).
Proof.
  assert (Hsound : forall (fuel : nat) (b : block),
             findBlock fuel index0 previousHash0 timestamp0 data0 difficulty0 = Some b ->
             mined index0 previousHash0 timestamp0 data0 difficulty0 b).
  { intros fuel b Hrun.
    destruct (findBlock_from_sound fuel 0 b Hrun)
      as (Hi & Hp & Ht & Hd & Hdiff & Hh & Hm & Hrange & Hmin).
    unfold mined. unfold nonceMeets in Hm, Hmin.
    repeat split; try assumption; try lia.
    now rewrite Hh. }
  split; [exact Hsound |].
  intros n Hn Hmatch.
  destruct (findBlock_from_finds (Z.to_nat n) 0 (S (Z.to_nat n))) as (b & Hrun).
  { unfold nonceMeets. now replace (0 + Z.of_nat (Z.to_nat n))%Z with n by lia. }
  { lia. }
  exists b.
  assert (Hmined := Hsound _ _ Hrun).
  split; [| split; [exact Hmined |]].
  - intros fuel Hfuel.
    destruct (findBlock_from_finds (Z.to_nat n) 0 fuel) as (b' & Hrun').
    { unfold nonceMeets. now replace (0 + Z.of_nat (Z.to_nat n))%Z with n by lia. }
    { exact Hfuel. }
    unfold findBlock. rewrite Hrun'. f_equal.
    destruct (Nat.le_ge_cases fuel (S (Z.to_nat n))) as [Hle | Hge].
    + apply (findBlock_from_more_fuel _ _ _ _ Hrun') in Hle.
      unfold findBlock in Hrun. congruence.
    + apply (findBlock_from_more_fuel _ _ _ _ Hrun) in Hge. congruence.
  - destruct Hmined as (_ & _ & _ & _ & _ & _ & _ & Hpos & Hmin).
    destruct (Z_le_gt_dec (nonce b) n) as [Hle | Hgt]; [exact Hle |].
    rewrite Hmin in Hmatch by lia. discriminate.
Qed.

(** Without a nonce whose digest meets the difficulty the loop never
    returns. *)
Lemma findBlock_never :
  (forall n : Z, (0 <= n)%Z -> matches n = false) ->
  forall fuel : nat,
    findBlock fuel index0 previousHash0 timestamp0 data0 difficulty0 = None.
Proof.
  intros Hnone fuel.
  destruct (findBlock fuel index0 previousHash0 timestamp0 data0 difficulty0)
    as [b |] eqn:Hrun; [| reflexivity].
  destruct (findBlock_from_sound fuel 0 b Hrun)
    as (_ & _ & _ & _ & _ & _ & Hm & Hrange & _).
  rewrite Hnone in Hm by lia. discriminate.
Qed.

End Mining.


(** *** Accumulated difficulty and cumulative work *)

Lemma exactlySummable_intro (chain : list block) :
  Forall (fun b => 0 <= difficulty b) chain ->
  workZ chain < 2 ^ 53 ->
  exactlySummable chain.
Proof.
  intros Hd Hlt. split; [exact Hd |].
  now rewrite (cumulativeWork_workZ chain Hd), <- Zlt_Qlt.
Qed.

(** C7: on a non-empty chain that is summed without rounding
    (difficulties not negative, sum below 2^53)
    [getAccumulatedDifficulty] returns the sum over the blocks of two
    to the difficulty; so, at a fixed difficulty, the longer of two
    chains has strictly more accumulated difficulty when it is summed
    without rounding; difficulties 4, 4, 4, 4, 5 give 96 and
    difficulties 6, 6 give 128; and [replaceChain] makes a valid chain
    of the second kind the canonical chain when the canonical chain is
    of the first kind. *)
Theorem getAccumulatedDifficulty_sums :
  (forall chain : list block,
      chain <> [] ->
      exactlySummable chain ->
      exists w,
        getAccumulatedDifficulty chain = Ret w
        /\ exactly (cumulativeWork chain) w)
  /\ (forall (d : Z) (shorter longer : list block) (w1 w2 : number),
        Forall (fun b => difficulty b = d) shorter ->
        Forall (fun b => difficulty b = d) longer ->
        (List.length shorter < List.length longer)%nat ->
        exactlySummable longer ->
        getAccumulatedDifficulty shorter = Ret w1 ->
        getAccumulatedDifficulty longer = Ret w2 ->
        greater w2 w1 = true)
  /\ (forall chain : list block,
        map difficulty chain = [4; 4; 4; 4; 5] ->
        getAccumulatedDifficulty chain = Ret (ofZ 96))
  /\ (forall chain : list block,
        map difficulty chain = [6; 6] ->
        getAccumulatedDifficulty chain = Ret (ofZ 128))
  /\ (forall (st : State) (candidate : list block),
        map difficulty (blockchain st) = [4; 4; 4; 4; 5] ->
        map difficulty candidate = [6; 6] ->
        isValidChain candidate = true ->
        installs candidate st
        /\ blockchain (state_after (replaceChain candidate) st) = candidate).
Proof.
  assert (HA : forall chain : list block,
             map difficulty chain = [4; 4; 4; 4; 5] ->
             getAccumulatedDifficulty chain = Ret (ofZ 96)).
  { intros chain Hd. unfold getAccumulatedDifficulty. rewrite Hd.
    vm_compute. reflexivity. }
  assert (HB : forall chain : list block,
             map difficulty chain = [6; 6] ->
             getAccumulatedDifficulty chain = Ret (ofZ 128)).
  { intros chain Hd. unfold getAccumulatedDifficulty. rewrite Hd.
    vm_compute. reflexivity. }
  split; [| split; [| split; [exact HA | split; [exact HB |]]]].
  - intros chain Hne Hsum.
    exists (ofZ (workZ chain)).
    split; [now apply accumulated_exact |].
    apply exactly_ofZ. apply Hsum.
  - intros d shorter longer w1 w2 Hs Hl Hlen Hsum Hw1 Hw2.
    destruct (exactlySummable_workZ longer Hsum) as [Hdl Hlt].
    assert (Hd : 0 <= d).
    { destruct longer as [| b rest]; [simpl in Hlen; lia |].
      inversion Hl; inversion Hdl; subst. assumption. }
    assert (Hpos : 0 < 2 ^ d) by (apply Z.pow_pos_nonneg; lia).
    assert (Hworks : workZ shorter < workZ longer).
    { rewrite (workZ_uniform d shorter Hs), (workZ_uniform d longer Hl).
      apply Z.mul_lt_mono_pos_r; [exact Hpos | unfold length_of; lia]. }
    assert (Hds : Forall (fun b : block => 0 <= difficulty b) shorter).
    { eapply Forall_impl; [| exact Hs]. simpl. intros b ->. exact Hd. }
    assert (Hsums : exactlySummable shorter)
      by (apply exactlySummable_intro; [exact Hds | lia]).
    rewrite (accumulated_exact shorter (accumulated_nonempty _ _ Hw1) Hsums) in Hw1.
    rewrite (accumulated_exact longer (accumulated_nonempty _ _ Hw2) Hsum) in Hw2.
    injection Hw1 as <-. injection Hw2 as <-.
    rewrite greater_ofZ. now apply Z.ltb_lt.
  - intros st candidate Hcur Hcand Hvalid.
    assert (Hinst : installs candidate st).
    { apply replaceChain_preferred.
      split; [exact Hvalid |].
      exists (ofZ 128), (ofZ 96).
      split; [now apply HB |]. split; [now apply HA |].
      now rewrite greater_ofZ. }
    split; [exact Hinst |].
    unfold installs in Hinst. now rewrite Hinst.
Qed.

(** *** The canonical chain is never empty *)

Lemma addBlockToChain_chain (b : block) (st : State) :
  blockchain (state_after (addBlockToChain b) st) = blockchain st
  \/ blockchain (state_after (addBlockToChain b) st) = blockchain st ++ [b].
Proof.
  unfold state_after. rewrite addBlockToChain_run.
  destruct (isValidNewBlock b (getLatestBlock st)); [| now left].
  destruct (processTransactions (data b) (unspentTxOuts st) (index b));
    [now right | now left].
Qed.

Lemma generateNextBlock_chain (fuel : nat) (now : Z) (payload : list Transaction)
      (st : State) :
  blockchain (state_after (generateNextBlock fuel now payload) st) = blockchain st
  \/ exists b,
      blockchain (state_after (generateNextBlock fuel now payload) st)
      = blockchain st ++ [b].
Proof.
  unfold state_after. rewrite generateNextBlock_run.
  destruct (getLatestBlock st) as [previousBlock |]; [| now left].
  destruct (getDifficulty st (blockchain st)) as [d | e |]; try now left.
  destruct (findBlock fuel (index previousBlock + 1) (hash previousBlock) now payload d)
    as [newBlock |]; [| now left].
  destruct (addBlockToChain_chain newBlock st) as [Hsame | Happ];
    unfold state_after in *;
    destruct (addBlockToChain newBlock st) as [[[|] | e |] st']; simpl in *;
    solve [now left | right; now exists newBlock].
Qed.

Lemma step_nonempty (st st' : State) :
  step st st' -> blockchain st <> [] -> blockchain st' <> [].
Proof.
  intros Hstep Hne.
  destruct Hstep as [st b | st fuel now payload | st candidate].
  - destruct (addBlockToChain_chain b st) as [-> | ->]; [exact Hne |].
    now destruct (blockchain st).
  - destruct (generateNextBlock_chain fuel now payload st) as [-> | (b & ->)];
      [exact Hne |].
    now destruct (blockchain st).
  - destruct (replaceChain_state candidate st)
      as [-> | [(_ & received & _ & Hreceived & _) ->]]; [exact Hne |].
    simpl. exact (accumulated_nonempty candidate received Hreceived).
Qed.

(** No operation lowers the accumulated difficulty of the canonical
    chain. *)
Lemma step_accumulated (st st' : State) (a b : number) :
  step st st' ->
  getAccumulatedDifficulty (getBlockchain st) = Ret a ->
  getAccumulatedDifficulty (getBlockchain st') = Ret b ->
  greater a b = false.
Proof.
  unfold getBlockchain.
  intros Hstep Ha Hb.
  assert (Hsame : blockchain st' = blockchain st -> greater a b = false).
  { intros Heq. rewrite Heq in Hb.
    assert (a = b) by congruence. subst b. apply greater_irrefl. }
  destruct Hstep as [st x | st fuel now payload | st candidate].
  - destruct (addBlockToChain_chain x st) as [Heq | Heq]; [now apply Hsame |].
    rewrite Heq in Hb. exact (accumulated_app _ _ _ _ Ha Hb).
  - destruct (generateNextBlock_chain fuel now payload st) as [Heq | (x & Heq)];
      [now apply Hsame |].
    rewrite Heq in Hb. exact (accumulated_app _ _ _ _ Ha Hb).
  - destruct (replaceChain_state candidate st)
      as [Heq | [(_ & received & held & Hreceived & Hheld & Hgt) Heq]].
    + apply Hsame. now rewrite Heq.
    + rewrite Heq in Hb. simpl in Hb. unfold getBlockchain in Hheld.
      assert (received = b) by congruence.
      assert (held = a) by congruence. subst.
      now apply greater_asym.
Qed.

Lemma reachable_nonempty (st : State) : reachable st -> blockchain st <> [].
Proof.
  induction 1 as [| st st' _ IH Hstep].
  - discriminate.
  - now apply (step_nonempty st st').
Qed.

(** In a reachable state [getLatestBlock] is defined. *)
Lemma reachable_latest (st : State) :
  reachable st -> exists b, getLatestBlock st = Some b.
Proof.
  intros Hreach.
  apply latest_of_nonempty.
  now apply reachable_nonempty.
Qed.

(** C10: [getAccumulatedDifficulty] raises [TypeError] on the empty
    chain and returns a number exactly on the non-empty ones; the
    canonical chain meets this precondition in every state reached
    from [Genesis]: no operation empties it, and none lowers the
    accumulated difficulty computed for it (a replacement may shorten
    it). *)
Theorem getAccumulatedDifficulty_needs_a_block :
  getAccumulatedDifficulty [] = Throw TypeError
  /\ (forall chain : list block,
        chain <> [] <-> exists w, getAccumulatedDifficulty chain = Ret w)
  /\ (forall st : State,
        reachable st ->
        blockchain st <> []
        /\ exists w, getAccumulatedDifficulty (getBlockchain st) = Ret w)
  /\ (forall st st' : State,
        step st st' -> blockchain st <> [] -> blockchain st' <> [])
  /\ (forall (st st' : State) (a b : number),
        step st st' ->
        getAccumulatedDifficulty (getBlockchain st) = Ret a ->
        getAccumulatedDifficulty (getBlockchain st') = Ret b ->
        greater a b = false).
Proof.
  split; [reflexivity |].
  split; [| split; [| split]].
  - intros chain. split.
    + apply accumulated_defined.
    + intros (w & Hw). exact (accumulated_nonempty chain w Hw).
  - intros st Hreach.
    pose proof (reachable_nonempty st Hreach) as Hne.
    split; [exact Hne | now apply accumulated_defined].
  - apply step_nonempty.
  - apply step_accumulated.
Qed.

(** *** Generating the next block *)

Local Open Scope Z_scope.

Lemma addBlockToChain_false (b : block) (st : State) :
  result_of (addBlockToChain b) st = Ret false ->
  addBlockToChain b st = (Ret false, st).
Proof.
  unfold result_of. rewrite addBlockToChain_run.
  destruct (isValidNewBlock b (getLatestBlock st)); [| reflexivity].
  destruct (processTransactions (data b) (unspentTxOuts st) (index b));
    [discriminate | reflexivity].
Qed.

Lemma getDifficulty_initial : getDifficulty initial (getBlockchain initial) = Ret 0.
Proof. reflexivity. Qed.

(** The block mined on top of [Genesis] at time [now] with an empty
    payload, when every hash meets difficulty 0. *)
Lemma findBlock_on_genesis (now : Z) (fuel : nat) :
  (forall h : string, hashMatchesDifficulty h 0 = true) ->
  (0 < fuel)%nat ->
  findBlock fuel 1 (hash genesisBlock) now [] 0
  = Some (mkBlock 1 (calculateHash 1 (hash genesisBlock) now [] 0 0)
                  (hash genesisBlock) now [] 0 0).
Proof.
  intros Hzero Hfuel.
  destruct fuel as [| fuel]; [lia |].
  unfold findBlock. cbn [findBlock_from].
  now rewrite Hzero.
Qed.

(** When the mined block is accepted, [generateNextBlock] returns it
    and leaves it appended. *)
Lemma generateNextBlock_success (fuel : nat) (now : Z) (payload : list Transaction)
      (st : State) (previousBlock newBlock : block) (d : Z)
      (u : list UnspentTxOut) :
  getLatestBlock st = Some previousBlock ->
  getDifficulty st (getBlockchain st) = Ret d ->
  findBlock fuel (index previousBlock + 1) (hash previousBlock) now payload d
  = Some newBlock ->
  isValidNewBlock newBlock (Some previousBlock) = true ->
  processTransactions (data newBlock) (unspentTxOuts st) (index newBlock) = Some u ->
  generateNextBlock fuel now payload st
  = (Ret (Some newBlock), broadcastLatest (appended newBlock u st)).
Proof.
  intros Hlatest Hd Hfind Hvalid Hu.
  rewrite generateNextBlock_run, Hlatest.
  unfold getBlockchain in Hd. rewrite Hd, Hfind.
  now rewrite addBlockToChain_run, Hlatest, Hvalid, Hu.
Qed.

(** When the append of the mined block fails, [generateNextBlock]
    returns null and leaves the state as it was. *)
Lemma generateNextBlock_null (fuel : nat) (now : Z) (payload : list Transaction)
      (st : State) (previousBlock newBlock : block) (d : Z) :
  getLatestBlock st = Some previousBlock ->
  getDifficulty st (getBlockchain st) = Ret d ->
  findBlock fuel (index previousBlock + 1) (hash previousBlock) now payload d
  = Some newBlock ->
  result_of (addBlockToChain newBlock) st = Ret false ->
  generateNextBlock fuel now payload st = (Ret None, st).
Proof.
  intros Hlatest Hd Hfind Hfalse.
  rewrite generateNextBlock_run, Hlatest.
  unfold getBlockchain in Hd. rewrite Hd, Hfind.
  now rewrite (addBlockToChain_false newBlock st Hfalse).
Qed.

(** *** Difficulty

    The two difficulty functions index their argument with the length
    of the global chain.  They do what the specification says of a
    chain when the argument is as long as the global chain, which is
    the case at their only call site, in [generateNextBlock]. *)

Lemma getDifficulty_same_length (st : State) (aBlockchain : list block)
      (latestBlock : block) :
  length_of aBlockchain = length_of (blockchain st) ->
  index_of aBlockchain (length_of aBlockchain - 1) = Some latestBlock ->
  getDifficulty st aBlockchain
  = if (Z.rem (index latestBlock) DIFFICULTY_ADJUSTMENT_INTERVAL =? 0)
       && negb (index latestBlock =? 0)
    then getAdjustedDifficulty st latestBlock aBlockchain
    else Ret (difficulty latestBlock).
Proof.
  intros Hlen Hlatest.
  unfold getDifficulty. now rewrite <- Hlen, Hlatest.
Qed.

Lemma getDifficulty_unadjusted (st : State) (aBlockchain : list block)
      (latestBlock : block) :
  length_of aBlockchain = length_of (blockchain st) ->
  index_of aBlockchain (length_of aBlockchain - 1) = Some latestBlock ->
  Z.rem (index latestBlock) DIFFICULTY_ADJUSTMENT_INTERVAL <> 0
  \/ index latestBlock = 0 ->
  getDifficulty st aBlockchain = Ret (difficulty latestBlock).
Proof.
  intros Hlen Hlatest Hcase.
  rewrite (getDifficulty_same_length st aBlockchain latestBlock Hlen Hlatest).
  destruct Hcase as [Hrem | Hzero].
  - apply Z.eqb_neq in Hrem. now rewrite Hrem.
  - rewrite Hzero. reflexivity.
Qed.

Lemma getAdjustedDifficulty_same_length (st : State) (aBlockchain : list block)
      (latestBlock prevAdjustmentBlock : block) :
  length_of aBlockchain = length_of (blockchain st) ->
  index_of aBlockchain (length_of aBlockchain - DIFFICULTY_ADJUSTMENT_INTERVAL)
  = Some prevAdjustmentBlock ->
  exists r : Z,
    getAdjustedDifficulty st latestBlock aBlockchain = Ret r
    /\ (timestamp latestBlock - timestamp prevAdjustmentBlock
        < BLOCK_GENERATION_INTERVAL * DIFFICULTY_ADJUSTMENT_INTERVAL / 2 ->
        r = difficulty prevAdjustmentBlock + 1)
    /\ (timestamp latestBlock - timestamp prevAdjustmentBlock
        > BLOCK_GENERATION_INTERVAL * DIFFICULTY_ADJUSTMENT_INTERVAL * 2 ->
        r = difficulty prevAdjustmentBlock - 1)
    /\ (BLOCK_GENERATION_INTERVAL * DIFFICULTY_ADJUSTMENT_INTERVAL / 2
        <= timestamp latestBlock - timestamp prevAdjustmentBlock
        <= BLOCK_GENERATION_INTERVAL * DIFFICULTY_ADJUSTMENT_INTERVAL * 2 ->
        r = difficulty prevAdjustmentBlock)
    /\ Z.abs (r - difficulty prevAdjustmentBlock) <= 1.
Proof.
  intros Hlen Hprev.
  unfold getAdjustedDifficulty. rewrite <- Hlen, Hprev.
  change (BLOCK_GENERATION_INTERVAL * DIFFICULTY_ADJUSTMENT_INTERVAL / 2) with 50.
  change (BLOCK_GENERATION_INTERVAL * DIFFICULTY_ADJUSTMENT_INTERVAL * 2) with 200.
  set (timeTaken := timestamp latestBlock - timestamp prevAdjustmentBlock).
  destruct (Z.ltb_spec timeTaken 50) as [Hfast | Hnotfast].
  - eexists. split; [reflexivity |]. repeat split; lia.
  - destruct (timeTaken >? 200) eqn:Hslow.
    + apply Z.gtb_lt in Hslow.
      eexists. split; [reflexivity |]. repeat split; lia.
    + assert (timeTaken <= 200).
      { destruct (Z.gtb_spec timeTaken 200); [discriminate | lia]. }
      eexists. split; [reflexivity |]. repeat split; lia.
Qed.

End Properties.

(** *** Generating the first block

    The collaborators are those of the specification. *)

Section OnGenesis.

Variables (Tx Utxo : Type).
Variable digest : Z -> string -> Z -> list Tx -> Z -> Z -> string.
Variable applyRecord : Tx -> list Utxo -> Z -> option (list Utxo).
Variable acceptableTimestamp : Z -> Z -> Z -> bool.
Variable clock : Z.
Variable chainValidator : list (Block Tx) -> bool.

Local Abbreviation spec :=
  (SpecModel.collaborators Tx Utxo digest applyRecord acceptableTimestamp clock
                           chainValidator).

Local Open Scope Z_scope.

(** C9: with the validator and the payload applier of the
    specification, and a clock in the acceptable window of the genesis
    timestamp, [generateNextBlock] on an empty payload in the initial
    state [Genesis] works at difficulty 0, which every hash meets: it
    returns, at the first nonce, a block of index 1 whose previous hash
    is the hash of the genesis block, and leaves that block appended to
    the chain, the balance set empty and one broadcast sent.  With any
    collaborators, in any state and for any payload, when the append of
    the mined block fails, [generateNextBlock] returns null and leaves
    the state as it was. *)
Theorem generateNextBlock_on_genesis :
  (forall fuel : nat,
      (0 < fuel)%nat ->
      acceptableTimestamp (timestamp (@genesisBlock spec)) clock clock = true ->
      exists newBlock : @block spec,
        @getDifficulty spec initial (getBlockchain initial) = Ret 0
        /\ @generateNextBlock spec fuel clock [] initial
           = (Ret (Some newBlock), mkState [genesisBlock; newBlock] [] 1)
        /\ index newBlock = 1
        /\ previousHash newBlock = hash (@genesisBlock spec)
        /\ difficulty newBlock = 0
        /\ nonce newBlock = 0
        /\ data newBlock = [])
  /\ (forall (C : Collaborators) (fuel : nat) (now : Z)
             (payload : list Transaction) (st : State)
             (previousBlock newBlock : block) (d : Z),
        getLatestBlock st = Some previousBlock ->
        getDifficulty st (getBlockchain st) = Ret d ->
        findBlock fuel (index previousBlock + 1) (hash previousBlock) now payload d
        = Some newBlock ->
        result_of (addBlockToChain newBlock) st = Ret false ->
        generateNextBlock fuel now payload st = (Ret None, st)).
Proof.
  split.
  - intros fuel Hfuel Hclock.
    assert (Hzero : forall h : string, @hashMatchesDifficulty spec h 0 = true).
    { intros h. apply Z.leb_le. apply Nat2Z.is_nonneg. }
    pose proof (@findBlock_on_genesis spec clock fuel Hzero Hfuel) as Hfind.
    exists (mkBlock 1 (digest 1 (hash (@genesisBlock spec)) clock [] 0 0)
                    (hash (@genesisBlock spec)) clock [] 0 0).
    split; [reflexivity |].
    split; [| repeat split].
    apply (@generateNextBlock_success spec fuel clock [] initial genesisBlock _ 0 []).
    + reflexivity.
    + reflexivity.
    + exact Hfind.
    + repeat (apply andb_true_intro; split).
      * reflexivity.
      * apply String.eqb_refl.
      * apply String.eqb_refl.
      * apply Hzero.
      * exact Hclock.
    + reflexivity.
  - intros C. apply generateNextBlock_null.
Qed.

End OnGenesis.

(** ** The operations on concrete inputs *)

Section Examples.

#[local] Existing Instance Demo.collaborators.

Local Open Scope Z_scope.

Lemma replaceChain_fork_choice_witness :
  blockchain initial <> []
  /\ preferred Demo.received initial
  /\ installs Demo.received initial
  /\ blockchain (state_after (replaceChain Demo.received) initial) = Demo.received
  /\ ~ preferred [genesisBlock] initial
  /\ state_after (replaceChain [genesisBlock]) initial = initial
  /\ exactlySummable Demo.received
  /\ exactlySummable (blockchain initial)
  /\ heavier Demo.received initial.
Proof.
  assert (Hne : blockchain initial <> []) by discriminate.
  assert (Hpref : preferred Demo.received initial).
  { split; [reflexivity |].
    exists (ofZ 2), (ofZ 1).
    split; [vm_compute; reflexivity |].
    split; [vm_compute; reflexivity | vm_compute; reflexivity]. }
  assert (Htie : ~ preferred [genesisBlock] initial).
  { intros (_ & received & held & Hreceived & Hheld & Hgt).
    change (getBlockchain initial) with [genesisBlock] in Hheld.
    assert (received = held) by congruence. subst held.
    rewrite greater_irrefl in Hgt. discriminate. }
  assert (Hsum : exactlySummable Demo.received).
  { split; [repeat constructor; discriminate | vm_compute; reflexivity]. }
  assert (Hsum0 : exactlySummable (blockchain initial)).
  { split; [repeat constructor; discriminate | vm_compute; reflexivity]. }
  pose proof (replaceChain_fork_choice initial Demo.received Hne)
    as (Hiff & Hchain & _ & Hexact).
  pose proof (replaceChain_fork_choice initial [genesisBlock] Hne)
    as (_ & _ & Hkeep & _).
  split; [exact Hne |].
  split; [exact Hpref |].
  split; [exact (proj2 Hiff Hpref) |].
  split; [exact (Hchain Hpref) |].
  split; [exact Htie |].
  split; [exact (Hkeep Htie) |].
  split; [exact Hsum |].
  split; [exact Hsum0 |].
  exact (proj1 (Hexact Hsum Hsum0) (proj2 Hiff Hpref)).
Defined.

(** The test of [replaceChain] is made on doubles: with a block of
    difficulty 53 a candidate with strictly more cumulative work is not
    installed, and one with strictly less is. *)
Lemma replaceChain_fork_choice_counterexample :
  (@heavier Lax.collaborators Lax.longer53 (mkState Lax.held53 [] 0)
   /\ ~ @installs Lax.collaborators Lax.longer53 (mkState Lax.held53 [] 0)
   /\ @state_after Lax.collaborators unit (replaceChain Lax.longer53)
                   (mkState Lax.held53 [] 0)
      = mkState Lax.held53 [] 0)
  /\ (~ @heavier Lax.collaborators Lax.lighter (mkState Lax.held53000 [] 0)
      /\ @installs Lax.collaborators Lax.lighter (mkState Lax.held53000 [] 0)
      /\ blockchain (@state_after Lax.collaborators unit (replaceChain Lax.lighter)
                                  (mkState Lax.held53000 [] 0))
         = Lax.lighter).
Proof.
  split.
  - split; [split; [reflexivity | vm_compute; reflexivity] |].
    assert (Hsame : @state_after Lax.collaborators unit (replaceChain Lax.longer53)
                                 (mkState Lax.held53 [] 0)
                    = mkState Lax.held53 [] 0)
      by (vm_compute; reflexivity).
    split; [| exact Hsame].
    unfold installs. rewrite Hsame. discriminate.
  - split; [| split; vm_compute; reflexivity].
    intros [_ Hlt]. vm_compute in Hlt. discriminate.
Defined.

(** C2: after [replaceChain] has installed the chain [Demo.received] over
    the initial one, the balance set is still the empty one of the
    initial state, although folding the payloads of [Demo.received] gives
    the balance set holding the amount 5: [replaceChain] assigns
    [blockchain] and nothing else. *)
Theorem replaceChain_stale_unspentTxOuts :
  isValidChain Demo.received = true
  /\ blockchain (state_after (replaceChain Demo.received) initial) = Demo.received
  /\ unspentTxOuts (state_after (replaceChain Demo.received) initial) = []
  /\ rederived (blockchain (state_after (replaceChain Demo.received) initial)) = Some [5].
Proof. vm_compute. repeat split. Qed.

Lemma addBlockToChain_rejects_atomically_witness :
  (isValidNewBlock Demo.badBlock (getLatestBlock initial) = false
   /\ addBlockToChain Demo.badBlock initial = (Ret false, initial))
  /\ (processTransactions (data Demo.overdraft) (unspentTxOuts initial)
                          (index Demo.overdraft) = None
      /\ addBlockToChain Demo.overdraft initial = (Ret false, initial))
  /\ (result_of (addBlockToChain Demo.overdraft) initial = Ret false
      /\ state_after (addBlockToChain Demo.overdraft) initial = initial).
Proof.
  split; [| split].
  - split; [reflexivity |].
    apply (proj1 (addBlockToChain_rejects_atomically Demo.badBlock initial)).
    reflexivity.
  - split; [reflexivity |].
    apply (proj1 (proj2 (addBlockToChain_rejects_atomically Demo.overdraft initial))).
    reflexivity.
  - split; [reflexivity |].
    apply (proj2 (proj2 (addBlockToChain_rejects_atomically Demo.overdraft initial))).
    reflexivity.
Defined.

Lemma addBlockToChain_appends_witness :
  isValidNewBlock Demo.block1 (getLatestBlock initial) = true
  /\ processTransactions (data Demo.block1) (unspentTxOuts initial)
                         (index Demo.block1) = Some [5]
  /\ result_of (addBlockToChain Demo.block1) initial = Ret true
  /\ blockchain (state_after (addBlockToChain Demo.block1) initial)
     = [genesisBlock; Demo.block1]
  /\ getLatestBlock (state_after (addBlockToChain Demo.block1) initial)
     = Some Demo.block1
  /\ unspentTxOuts (state_after (addBlockToChain Demo.block1) initial) = [5].
Proof.
  assert (Hvalid : isValidNewBlock Demo.block1 (getLatestBlock initial) = true)
    by reflexivity.
  assert (Hpayload : processTransactions (data Demo.block1) (unspentTxOuts initial)
                                         (index Demo.block1) = Some [5])
    by reflexivity.
  pose proof (addBlockToChain_appends Demo.block1 initial [5] Hvalid Hpayload)
    as (Hret & Hchain & _ & Hlatest & Hbalance).
  repeat split; assumption.
Defined.

Lemma getAccumulatedDifficulty_sums_witness :
  (Demo.chainA <> []
   /\ exactlySummable Demo.chainA
   /\ exists w, getAccumulatedDifficulty Demo.chainA = Ret w
                /\ exactly (cumulativeWork Demo.chainA) w)
  /\ (Forall (fun b : block => difficulty b = 6) [Demo.plain 0 100 6]
      /\ Forall (fun b : block => difficulty b = 6) Demo.chainB
      /\ (List.length [Demo.plain 0 100 6] < List.length Demo.chainB)%nat
      /\ exactlySummable Demo.chainB
      /\ getAccumulatedDifficulty [Demo.plain 0 100 6] = Ret (ofZ 64)
      /\ getAccumulatedDifficulty Demo.chainB = Ret (ofZ 128)
      /\ greater (ofZ 128) (ofZ 64) = true)
  /\ (map difficulty Demo.chainA = [4; 4; 4; 4; 5]
      /\ getAccumulatedDifficulty Demo.chainA = Ret (ofZ 96))
  /\ (map difficulty Demo.chainB = [6; 6]
      /\ getAccumulatedDifficulty Demo.chainB = Ret (ofZ 128))
  /\ (isValidChain Demo.chainB = true
      /\ installs Demo.chainB (mkState Demo.chainA [] 0)
      /\ blockchain (state_after (replaceChain Demo.chainB) (mkState Demo.chainA [] 0))
         = Demo.chainB).
Proof.
  pose proof getAccumulatedDifficulty_sums as (Hsum & Hgrow & HA & HB & Hprefer).
  assert (Hone : Forall (fun b : block => difficulty b = 6) [Demo.plain 0 100 6])
    by (repeat constructor).
  assert (Htwo : Forall (fun b : block => difficulty b = 6) Demo.chainB)
    by (repeat constructor).
  assert (Hlen : (List.length [Demo.plain 0 100 6] < List.length Demo.chainB)%nat)
    by (simpl; lia).
  assert (HsumA : exactlySummable Demo.chainA).
  { split; [repeat constructor; discriminate | vm_compute; reflexivity]. }
  assert (HsumB : exactlySummable Demo.chainB).
  { split; [repeat constructor; discriminate | vm_compute; reflexivity]. }
  assert (H64 : getAccumulatedDifficulty [Demo.plain 0 100 6] = Ret (ofZ 64))
    by (vm_compute; reflexivity).
  assert (HneA : Demo.chainA <> []) by discriminate.
  split; [split; [exact HneA | split; [exact HsumA | exact (Hsum _ HneA HsumA)]] |].
  split.
  { split; [exact Hone |].
    split; [exact Htwo |].
    split; [exact Hlen |].
    split; [exact HsumB |].
    split; [exact H64 |].
    split; [exact (HB Demo.chainB eq_refl) |].
    exact (Hgrow 6 [Demo.plain 0 100 6] Demo.chainB (ofZ 64) (ofZ 128) Hone Htwo
                 Hlen HsumB H64 (HB Demo.chainB eq_refl)). }
  split; [split; [reflexivity | exact (HA Demo.chainA eq_refl)] |].
  split; [split; [reflexivity | exact (HB Demo.chainB eq_refl)] |].
  split; [reflexivity |].
  exact (Hprefer (mkState Demo.chainA [] 0) Demo.chainB eq_refl eq_refl eq_refl).
Defined.

(** Sums are made on doubles: after a block of difficulty 53 a block of
    difficulty 0 adds nothing, and at difficulty 1024 a longer chain
    does not accumulate more. *)
Lemma getAccumulatedDifficulty_sums_counterexample :
  ([Lax.at53; Lax.at0 2] <> []
   /\ @getAccumulatedDifficulty Lax.collaborators [Lax.at53; Lax.at0 2]
      = Ret (ofZ (2 ^ 53))
   /\ ~ exactly (@cumulativeWork Lax.collaborators [Lax.at53; Lax.at0 2])
                (ofZ (2 ^ 53)))
  /\ (@getAccumulatedDifficulty Lax.collaborators [Lax.at1024] = Ret Infinity
      /\ @getAccumulatedDifficulty Lax.collaborators [Lax.at1024; Lax.at1024]
         = Ret Infinity
      /\ greater Infinity Infinity = false).
Proof.
  split.
  - split; [discriminate |].
    split; [vm_compute; reflexivity |].
    intros Hexact. vm_compute in Hexact. discriminate.
  - repeat split; vm_compute; reflexivity.
Defined.

Lemma findBlock_mines_witness :
  (findBlock 5 2 "ab" 1588310960 [1; 2] 4
   = Some (mkBlock 2 "00f" "ab" 1588310960 [1; 2] 4 3)
   /\ mined 2 "ab" 1588310960 [1; 2] 4
            (mkBlock 2 "00f" "ab" 1588310960 [1; 2] 4 3))
  /\ (0 <= 7
      /\ nonceMeets 2 "ab" 1588310960 [1; 2] 4 7 = true
      /\ exists b : block,
          (forall fuel : nat,
              (Z.to_nat 7 < fuel)%nat ->
              findBlock fuel 2 "ab" 1588310960 [1; 2] 4 = Some b)
          /\ mined 2 "ab" 1588310960 [1; 2] 4 b
          /\ nonce b <= 7).
Proof.
  pose proof (findBlock_mines (C := Demo.collaborators) 2 "ab" 1588310960 [1; 2] 4)
    as (Hreturned & Hends).
  split.
  - split; [reflexivity |].
    apply (Hreturned 5%nat). reflexivity.
  - split; [lia |].
    split; [reflexivity |].
    apply (Hends 7); [lia | reflexivity].
Defined.

Lemma every_hash_meets_zero (h : string) : hashMatchesDifficulty h 0 = true.
Proof. apply Z.leb_le. apply Nat2Z.is_nonneg. Qed.

Lemma generateNextBlock_on_genesis_witness :
  ((0 < 1)%nat
   /\ Strict.acceptableTimestamp (timestamp (@genesisBlock Strict.spec))
                                 Strict.clock Strict.clock = true
   /\ exists newBlock : @block Strict.spec,
       @getDifficulty Strict.spec initial (getBlockchain initial) = Ret 0
       /\ @generateNextBlock Strict.spec 1 Strict.clock [] initial
          = (Ret (Some newBlock), mkState [genesisBlock; newBlock] [] 1)
       /\ index newBlock = 1
       /\ previousHash newBlock = hash (@genesisBlock Strict.spec)
       /\ difficulty newBlock = 0
       /\ nonce newBlock = 0
       /\ data newBlock = [])
  /\ (getLatestBlock initial = Some genesisBlock
      /\ getDifficulty initial (getBlockchain initial) = Ret 0
      /\ findBlock 1 (index genesisBlock + 1) (hash genesisBlock) 1588310950 [-5] 0
         = Some Demo.overdraft
      /\ result_of (addBlockToChain Demo.overdraft) initial = Ret false
      /\ generateNextBlock 1 1588310950 [-5] initial = (Ret None, initial)).
Proof.
  pose proof (generateNextBlock_on_genesis Z Z Demo.calculateHash Strict.applyRecord
                Strict.acceptableTimestamp Strict.clock Strict.isValidChain)
    as (Hsucceeds & Hnull).
  split.
  - split; [lia |].
    split; [reflexivity |].
    exact (Hsucceeds 1%nat (Nat.lt_0_succ 0) eq_refl).
  - do 4 (split; [reflexivity |]).
    apply (Hnull Demo.collaborators 1%nat 1588310950 [-5] initial genesisBlock
                 Demo.overdraft 0); reflexivity.
Defined.

Lemma getAccumulatedDifficulty_needs_a_block_witness :
  (Demo.received <> [] /\ exists w, getAccumulatedDifficulty Demo.received = Ret w)
  /\ (reachable (state_after (replaceChain Demo.received) initial)
      /\ blockchain (state_after (replaceChain Demo.received) initial) <> []
      /\ exists w,
          getAccumulatedDifficulty
            (getBlockchain (state_after (replaceChain Demo.received) initial)) = Ret w)
  /\ (step initial (state_after (addBlockToChain Demo.block1) initial)
      /\ blockchain initial <> []
      /\ blockchain (state_after (addBlockToChain Demo.block1) initial) <> [])
  /\ (getAccumulatedDifficulty (getBlockchain initial) = Ret (ofZ 1)
      /\ getAccumulatedDifficulty
           (getBlockchain (state_after (addBlockToChain Demo.block1) initial))
         = Ret (ofZ 2)
      /\ greater (ofZ 1) (ofZ 2) = false).
Proof.
  pose proof getAccumulatedDifficulty_needs_a_block
    as (_ & Hdefined & Hreach & Hkeeps & Hgrows).
  assert (Hne : Demo.received <> []) by discriminate.
  assert (Hne0 : blockchain initial <> []) by discriminate.
  assert (Hr : reachable (state_after (replaceChain Demo.received) initial)).
  { apply (reach_step initial); [apply reach_initial | apply step_replace]. }
  assert (Hs : step initial (state_after (addBlockToChain Demo.block1) initial))
    by apply step_add.
  assert (H1 : getAccumulatedDifficulty (getBlockchain initial) = Ret (ofZ 1))
    by (vm_compute; reflexivity).
  assert (H2 : getAccumulatedDifficulty
                 (getBlockchain (state_after (addBlockToChain Demo.block1) initial))
               = Ret (ofZ 2))
    by (vm_compute; reflexivity).
  split; [split; [exact Hne | exact (proj1 (Hdefined Demo.received) Hne)] |].
  split; [split; [exact Hr | exact (Hreach _ Hr)] |].
  split; [split; [exact Hs | split; [exact Hne0 | exact (Hkeeps _ _ Hs Hne0)]] |].
  split; [exact H1 |].
  split; [exact H2 | exact (Hgrows _ _ _ _ Hs H1 H2)].
Defined.

(** The canonical chain can get shorter: after two appends to
    [Genesis] it has three blocks, and [replaceChain] then installs a
    valid chain of two blocks with a block of difficulty 8. *)
Lemma getAccumulatedDifficulty_needs_a_block_counterexample :
  reachable (@state_after Strict.collaborators bool (addBlockToChain Strict.block2)
               (state_after (addBlockToChain Strict.block1) initial))
  /\ step (@state_after Strict.collaborators bool (addBlockToChain Strict.block2)
             (state_after (addBlockToChain Strict.block1) initial))
          (state_after (replaceChain Strict.short)
             (state_after (addBlockToChain Strict.block2)
                (state_after (addBlockToChain Strict.block1) initial)))
  /\ List.length
       (blockchain (@state_after Strict.collaborators bool
                      (addBlockToChain Strict.block2)
                      (state_after (addBlockToChain Strict.block1) initial)))
     = 3%nat
  /\ List.length
       (blockchain (@state_after Strict.collaborators unit
                      (replaceChain Strict.short)
                      (state_after (addBlockToChain Strict.block2)
                         (state_after (addBlockToChain Strict.block1) initial))))
     = 2%nat.
Proof.
  split; [| split; [apply step_replace | split; vm_compute; reflexivity]].
  apply (reach_step (state_after (addBlockToChain Strict.block1) initial));
    [| apply step_add].
  apply (reach_step initial); [apply reach_initial | apply step_add].
Defined.

End Examples.

(** ** Further properties of the operations *)

Section Behaviour.

Context {C : Collaborators}.

Local Open Scope Z_scope.

(** *** Arrays *)

Lemma index_of_range {A : Type} (l : list A) (i : Z) (x : A) :
  index_of l i = Some x -> 0 <= i < length_of l.
Proof.
  unfold index_of, length_of.
  destruct (Z.ltb_spec i 0) as [Hneg | Hpos]; [discriminate |].
  intros Hnth.
  assert (Hlt : (Z.to_nat i < List.length l)%nat).
  { apply nth_error_Some. congruence. }
  lia.
Qed.

Lemma index_of_defined {A : Type} (l : list A) (i : Z) :
  0 <= i < length_of l -> exists x, index_of l i = Some x.
Proof.
  unfold index_of, length_of. intros Hrange.
  destruct (Z.ltb_spec i 0) as [Hneg | Hpos]; [lia |].
  destruct (nth_error l (Z.to_nat i)) as [x |] eqn:Hnth; [now exists x |].
  apply nth_error_None in Hnth. lia.
Qed.

Lemma index_of_outside {A : Type} (l : list A) (i : Z) :
  i < 0 \/ length_of l <= i -> index_of l i = None.
Proof.
  intros Hout.
  destruct (index_of l i) as [x |] eqn:Hx; [| reflexivity].
  apply index_of_range in Hx. lia.
Qed.

Lemma index_of_app_front {A : Type} (l r : list A) (i : Z) (x : A) :
  index_of l i = Some x -> index_of (l ++ r) i = Some x.
Proof.
  intros Hx.
  pose proof (index_of_range l i x Hx) as Hrange.
  unfold index_of, length_of in *.
  destruct (Z.ltb_spec i 0) as [Hneg | Hpos]; [discriminate |].
  rewrite nth_error_app1 by lia. exact Hx.
Qed.

Lemma index_of_app_end {A : Type} (l : list A) (b x : A) (i : Z) :
  index_of (l ++ [b]) i = Some x ->
  index_of l i = Some x \/ (i = length_of l /\ x = b).
Proof.
  intros Hx.
  pose proof (index_of_range _ _ _ Hx) as Hrange.
  unfold length_of in Hrange. rewrite length_app in Hrange. simpl in Hrange.
  destruct (Z.eq_dec i (length_of l)) as [-> | Hne].
  - right. split; [reflexivity |].
    pose proof (index_of_last l b) as Hlast.
    replace (length_of (l ++ [b]) - 1) with (length_of l) in Hlast
      by (unfold length_of; rewrite length_app; simpl; lia).
    congruence.
  - left.
    destruct (index_of_defined l i) as (y & Hy); [unfold length_of in *; lia |].
    rewrite (index_of_app_front l [b] i y Hy) in Hx. congruence.
Qed.

Lemma getLatestBlock_empty (st : State) :
  blockchain st = [] -> getLatestBlock st = None.
Proof. intros Hnil. unfold getLatestBlock. now rewrite Hnil. Qed.

Lemma getLatestBlock_none (st : State) :
  getLatestBlock st = None -> blockchain st = [].
Proof.
  intros Hnone.
  destruct (blockchain st) as [| b rest] eqn:Hchain; [reflexivity |].
  destruct (latest_of_nonempty (b :: rest)) as (x & Hx); [discriminate |].
  unfold getLatestBlock in Hnone. rewrite Hchain in Hnone. congruence.
Qed.

(** *** What an operation leaves behind *)

Lemma addBlockToChain_state (b : block) (st : State) :
  (result_of (addBlockToChain b) st = Ret false
   /\ state_after (addBlockToChain b) st = st)
  \/ exists u,
      isValidNewBlock b (getLatestBlock st) = true
      /\ processTransactions (data b) (unspentTxOuts st) (index b) = Some u
      /\ result_of (addBlockToChain b) st = Ret true
      /\ state_after (addBlockToChain b) st = appended b u st.
Proof.
  unfold result_of, state_after. rewrite addBlockToChain_run.
  destruct (isValidNewBlock b (getLatestBlock st)); [| now left].
  destruct (processTransactions (data b) (unspentTxOuts st) (index b)) as [u |];
    [right | now left].
  now exists u.
Qed.

Lemma findBlock_sound (fuel : nat) (i : Z) (prev : string) (ts : Z)
      (payload : list Transaction) (d : Z) (b : block) :
  findBlock fuel i prev ts payload d = Some b -> mined i prev ts payload d b.
Proof.
  intros Hrun.
  destruct (findBlock_from_sound i prev ts payload d fuel 0 b Hrun)
    as (Hi & Hp & Ht & Hd & Hdiff & Hh & Hm & Hrange & Hmin).
  unfold mined. unfold nonceMeets in Hm, Hmin.
  repeat split; try assumption; try lia.
  now rewrite Hh.
Qed.

(** The ways a call of [generateNextBlock] can end. *)
Lemma generateNextBlock_cases (fuel : nat) (now : Z) (payload : list Transaction)
      (st : State) :
  (state_after (generateNextBlock fuel now payload) st = st
   /\ forall b, result_of (generateNextBlock fuel now payload) st <> Ret (Some b))
  \/ exists (previousBlock b : block) (d : Z) (u : list UnspentTxOut),
      getLatestBlock st = Some previousBlock
      /\ getDifficulty st (getBlockchain st) = Ret d
      /\ findBlock fuel (index previousBlock + 1) (hash previousBlock) now payload d
         = Some b
      /\ isValidNewBlock b (Some previousBlock) = true
      /\ processTransactions (data b) (unspentTxOuts st) (index b) = Some u
      /\ generateNextBlock fuel now payload st
         = (Ret (Some b), broadcastLatest (appended b u st)).
Proof.
  unfold result_of, state_after, getBlockchain.
  rewrite generateNextBlock_run.
  destruct (getLatestBlock st) as [previousBlock |] eqn:Hlatest;
    [| left; split; [reflexivity | discriminate]].
  destruct (getDifficulty st (blockchain st)) as [d | e |] eqn:Hd;
    try (left; split; [reflexivity | discriminate]).
  destruct (findBlock fuel (index previousBlock + 1) (hash previousBlock) now payload d)
    as [b |] eqn:Hfind; [| left; split; [reflexivity | discriminate]].
  rewrite addBlockToChain_run, Hlatest.
  destruct (isValidNewBlock b (Some previousBlock)) eqn:Hvalid;
    [| left; split; [reflexivity | discriminate]].
  destruct (processTransactions (data b) (unspentTxOuts st) (index b)) as [u |] eqn:Hu;
    [| left; split; [reflexivity | discriminate]].
  right. exists previousBlock, b, d, u.
  repeat split; try assumption; reflexivity.
Qed.

(** *** [generateNextBlock] *)

(** X1: when [generateNextBlock] returns a block, that block was mined
    on top of the latest block (next index, hash of the latest block as
    previous hash, the current timestamp, the payload given, the
    difficulty [getDifficulty] answers), the new-block validator and the
    payload applier accepted it, and the state left is the old one with
    the block pushed, the derived balance set installed and one more
    broadcast; [getLatestBlock] then returns the block. *)
Theorem generateNextBlock_returns_mined (fuel : nat) (now : Z)
        (payload : list Transaction) (st : State) (b : block) :
  result_of (generateNextBlock fuel now payload) st = Ret (Some b) ->
  exists (previousBlock : block) (d : Z) (u : list UnspentTxOut),
    getLatestBlock st = Some previousBlock
    /\ getDifficulty st (getBlockchain st) = Ret d
    /\ mined (index previousBlock + 1) (hash previousBlock) now payload d b
    /\ isValidNewBlock b (Some previousBlock) = true
    /\ processTransactions payload (unspentTxOuts st) (index previousBlock + 1)
       = Some u
    /\ state_after (generateNextBlock fuel now payload) st
       = broadcastLatest (appended b u st)
    /\ getLatestBlock (state_after (generateNextBlock fuel now payload) st) = Some b.
Proof.
  intros Hret.
  destruct (generateNextBlock_cases fuel now payload st)
    as [[_ Hnot] | (previousBlock & b' & d & u & Hlatest & Hd & Hfind & Hvalid & Hu & Hrun)].
  - now destruct (Hnot b).
  - unfold result_of in Hret. rewrite Hrun in Hret. simpl in Hret.
    injection Hret as <-.
    pose proof (findBlock_sound _ _ _ _ _ _ _ Hfind) as Hmined.
    exists previousBlock, d, u.
    pose proof Hmined as (Hi & _ & _ & Hdata & _).
    rewrite Hdata, Hi in Hu.
    split; [exact Hlatest |].
    split; [exact Hd |].
    split; [exact Hmined |].
    split; [exact Hvalid |].
    split; [exact Hu |].
    unfold state_after. rewrite Hrun.
    split; [reflexivity |].
    unfold getLatestBlock. simpl. apply index_of_last.
Qed.

(** X2: [generateNextBlock] changes nothing unless it returns a block:
    when it answers null, raises an exception or is still searching
    when the bound on the iterations is reached, the chain, the balance
    set and the number of broadcasts are as before. *)
Theorem generateNextBlock_changes_only_on_success (fuel : nat) (now : Z)
        (payload : list Transaction) (st : State) :
  result_of (generateNextBlock fuel now payload) st = Ret None
  \/ (exists e, result_of (generateNextBlock fuel now payload) st = Throw e)
  \/ result_of (generateNextBlock fuel now payload) st = OutOfFuel ->
  state_after (generateNextBlock fuel now payload) st = st.
Proof.
  intros Hret.
  destruct (generateNextBlock_cases fuel now payload st)
    as [[Hsame _] | (previousBlock & b & d & u & _ & _ & _ & _ & _ & Hrun)];
    [exact Hsame |].
  unfold result_of in Hret. rewrite Hrun in Hret. simpl in Hret.
  destruct Hret as [Hret | [(e & Hret) | Hret]]; discriminate.
Qed.

(** *** Broadcasts *)

Lemma push_changes_chain (chain : list block) (b : block) : chain ++ [b] <> chain.
Proof.
  intros Heq. apply (f_equal (@List.length block)) in Heq.
  rewrite length_app in Heq. simpl in Heq. lia.
Qed.

(** X3: [addBlockToChain] never sends the broadcast signal, whatever
    it returns; and an operation ([addBlockToChain],
    [generateNextBlock], [replaceChain]) sends at most one, and only
    when it has changed the canonical chain. *)
Theorem broadcast_only_on_change :
  (forall (b : block) (st : State),
      broadcasts (state_after (addBlockToChain b) st) = broadcasts st)
  /\ (forall st st' : State,
        step st st' ->
        broadcasts st' = broadcasts st
        \/ (broadcasts st' = S (broadcasts st) /\ blockchain st' <> blockchain st)).
Proof.
  assert (Hadd : forall (b : block) (st : State),
             broadcasts (state_after (addBlockToChain b) st) = broadcasts st).
  { intros b st.
    destruct (addBlockToChain_state b st) as [[_ ->] | (u & _ & _ & _ & ->)];
      reflexivity. }
  split; [exact Hadd |].
  intros st st' Hstep.
  destruct Hstep as [st b | st fuel now payload | st candidate].
  - left. apply Hadd.
  - destruct (generateNextBlock_cases fuel now payload st)
      as [[-> _] | (previousBlock & b & d & u & _ & _ & _ & _ & _ & Hrun)];
      [now left | right].
    unfold state_after. rewrite Hrun. simpl.
    split; [reflexivity | apply push_changes_chain].
  - destruct (replaceChain_state candidate st)
      as [-> | [(_ & received & held & Hreceived & Hheld & Hgt) ->]];
      [now left | right].
    simpl. split; [reflexivity |].
    intros ->. unfold getBlockchain in Hheld.
    assert (Heq : received = held) by congruence.
    rewrite Heq, greater_irrefl in Hgt. discriminate.
Qed.

(** *** Appends keep what is there *)

(** X4: an append never rewrites the chain: a block found at a
    position before [addBlockToChain] or [generateNextBlock] is found
    at the same position after it, whatever the call returns. *)
Theorem append_preserves_positions (st : State) (i : Z) (x : block) :
  index_of (blockchain st) i = Some x ->
  (forall b : block,
      index_of (blockchain (state_after (addBlockToChain b) st)) i = Some x)
  /\ (forall (fuel : nat) (now : Z) (payload : list Transaction),
        index_of (blockchain (state_after (generateNextBlock fuel now payload) st)) i
        = Some x).
Proof.
  intros Hx. split.
  - intros b.
    destruct (addBlockToChain_chain b st) as [-> | ->];
      [exact Hx | now apply index_of_app_front].
  - intros fuel now payload.
    destruct (generateNextBlock_chain fuel now payload st) as [-> | (b & ->)];
      [exact Hx | now apply index_of_app_front].
Qed.

(** X5: a successful [addBlockToChain] never lowers the accumulated
    difficulty computed for the canonical chain; when the new chain is
    summed without rounding (difficulties not negative, cumulative work
    below 2^53) it raises it by exactly two to the difficulty of the
    appended block, hence strictly. *)
Theorem addBlockToChain_adds_work (b : block) (st : State) (w : number) :
  result_of (addBlockToChain b) st = Ret true ->
  getAccumulatedDifficulty (getBlockchain st) = Ret w ->
  exists w' : number,
    getAccumulatedDifficulty (getBlockchain (state_after (addBlockToChain b) st))
    = Ret w'
    /\ greater w w' = false
    /\ (exactlySummable (blockchain st ++ [b]) ->
        exists n : Z,
          w = ofZ n
          /\ w' = ofZ (n + 2 ^ difficulty b)
          /\ greater w' w = true).
Proof.
  intros Hret Hw.
  destruct (addBlockToChain_state b st) as [[Hfalse _] | (u & _ & _ & _ & Hst)];
    [congruence |].
  rewrite Hst. unfold getBlockchain in *. simpl.
  destruct (accumulated_defined (blockchain st ++ [b])) as (w' & Hw').
  { intros Hnil. now destruct (blockchain st). }
  exists w'. split; [exact Hw' |].
  split; [exact (accumulated_app _ _ _ _ Hw Hw') |].
  intros Hsum.
  pose proof (exactlySummable_front _ _ Hsum) as Hfront.
  rewrite (accumulated_exact _ (accumulated_nonempty _ _ Hw) Hfront) in Hw.
  rewrite (accumulated_exact _ (accumulated_nonempty _ _ Hw') Hsum) in Hw'.
  injection Hw as <-. injection Hw' as <-.
  exists (workZ (blockchain st)).
  split; [reflexivity |].
  rewrite workZ_app. cbn [workZ]. rewrite Z.add_0_r.
  split; [reflexivity |].
  rewrite greater_ofZ. apply Z.ltb_lt.
  destruct (exactlySummable_workZ _ Hsum) as [Hd _].
  apply Forall_app in Hd as [_ Hb]. inversion Hb; subst.
  assert (0 < 2 ^ difficulty b) by (apply Z.pow_pos_nonneg; lia). lia.
Qed.

(** *** The balance set along appends *)

Lemma foldPayloads_snoc (rest : list block) (b : block) :
  forall u0 u u' : list UnspentTxOut,
    foldPayloads rest u0 = Some u ->
    processTransactions (data b) u (index b) = Some u' ->
    foldPayloads (rest ++ [b]) u0 = Some u'.
Proof.
  induction rest as [| x rest IH]; intros u0 u u' Hfold Hb; simpl in *.
  - injection Hfold as ->. now rewrite Hb.
  - destruct (processTransactions (data x) u0 (index x)) as [u1 |]; [| discriminate].
    now apply (IH u1 u u').
Qed.

(** X6: as long as the chain is changed by appends only
    ([addBlockToChain] and [generateNextBlock], from the initial state),
    its first block is the genesis block and the balance set is the
    result of applying, in chain order and starting from the empty
    balance set, the payloads of the blocks that follow the genesis
    block. *)
Theorem extended_balance_set (st : State) :
  extended st ->
  exists rest : list block,
    blockchain st = genesisBlock :: rest
    /\ foldPayloads rest [] = Some (unspentTxOuts st).
Proof.
  induction 1 as [| st b _ IH | st fuel now payload _ IH].
  - exists []. split; reflexivity.
  - destruct IH as (rest & Hchain & Hfold).
    destruct (addBlockToChain_state b st) as [[_ ->] | (u & _ & Hu & _ & ->)].
    + now exists rest.
    + exists (rest ++ [b]). simpl. rewrite Hchain. split; [reflexivity |].
      exact (foldPayloads_snoc rest b [] (unspentTxOuts st) u Hfold Hu).
  - destruct IH as (rest & Hchain & Hfold).
    destruct (generateNextBlock_cases fuel now payload st)
      as [[-> _] | (previousBlock & b & d & u & _ & _ & _ & _ & Hu & Hrun)].
    + now exists rest.
    + unfold state_after. rewrite Hrun. simpl.
      exists (rest ++ [b]). rewrite Hchain. split; [reflexivity |].
      exact (foldPayloads_snoc rest b [] (unspentTxOuts st) u Hfold Hu).
Qed.

(** *** [replaceChain] *)

(** X7: with a non-empty canonical chain, [replaceChain] raises
    [TypeError] exactly when the chain validator accepts the empty
    chain and the candidate is empty; it then leaves the state as it
    was, and in every other case it returns normally. *)
Theorem replaceChain_TypeError (candidate : list block) (st : State) :
  blockchain st <> [] ->
  (result_of (replaceChain candidate) st = Throw TypeError
   <-> isValidChain candidate = true /\ candidate = [])
  /\ (result_of (replaceChain candidate) st = Throw TypeError ->
      state_after (replaceChain candidate) st = st)
  /\ (~ (isValidChain candidate = true /\ candidate = []) ->
      result_of (replaceChain candidate) st = Ret tt).
Proof.
  intros Hne.
  destruct (accumulated_defined (blockchain st) Hne) as (held & Hheld).
  unfold result_of, state_after.
  rewrite replaceChain_run, Hheld.
  destruct (isValidChain candidate).
  - destruct candidate as [| b rest].
    + simpl. repeat split; try tauto.
    + rewrite getAccumulatedDifficulty_cons.
      destruct (greater _ held); simpl;
        (split; [split; [discriminate | intros [_ Hnil]; discriminate] |]);
        (split; [discriminate | reflexivity]).
  - simpl. split; [split; [discriminate | intros [Hv _]; discriminate] |].
    split; [discriminate | reflexivity].
Qed.

(** X8: [replaceChain] is idempotent: handing it the same chain a
    second time changes nothing, and in particular sends no second
    broadcast. *)
Theorem replaceChain_idempotent (candidate : list block) (st : State) :
  state_after (replaceChain candidate) (state_after (replaceChain candidate) st)
  = state_after (replaceChain candidate) st.
Proof.
  destruct (replaceChain_state candidate st) as [Hsame | [_ Hinst]].
  - now rewrite !Hsame.
  - rewrite Hinst.
    apply replaceChain_not_preferred.
    intros (_ & received & held & Hreceived & Hheld & Hgt).
    unfold getBlockchain in Hheld. simpl in Hheld.
    assert (Heq : received = held) by congruence.
    rewrite Heq, greater_irrefl in Hgt. discriminate.
Qed.

(** X9: a chain that extends the non-empty canonical chain by at
    least one block and is summed without rounding (difficulties not
    negative, cumulative work below 2^53) becomes the canonical chain
    as soon as the chain validator accepts it. *)
Theorem replaceChain_installs_extension (st : State) (extra : list block) :
  blockchain st <> [] ->
  extra <> [] ->
  isValidChain (blockchain st ++ extra) = true ->
  exactlySummable (blockchain st ++ extra) ->
  installs (blockchain st ++ extra) st
  /\ blockchain (state_after (replaceChain (blockchain st ++ extra)) st)
     = blockchain st ++ extra.
Proof.
  intros Hne Hextra Hvalid Hsum.
  assert (Hinst : installs (blockchain st ++ extra) st).
  { apply replaceChain_preferred.
    split; [exact Hvalid |].
    pose proof (exactlySummable_front _ _ Hsum) as Hfront.
    exists (ofZ (workZ (blockchain st ++ extra))), (ofZ (workZ (blockchain st))).
    split; [apply accumulated_exact; [now destruct (blockchain st) | exact Hsum] |].
    split; [now apply accumulated_exact |].
    rewrite greater_ofZ, workZ_app. apply Z.ltb_lt.
    destruct (exactlySummable_workZ _ Hsum) as [Hd _].
    apply Forall_app in Hd as [_ Hd].
    pose proof (workZ_pos extra Hd Hextra). lia. }
  split; [exact Hinst |].
  unfold installs in Hinst. now rewrite Hinst.
Qed.

(** X10: [replaceChain] never rolls the chain back: a candidate that
    is the canonical chain itself or a prefix of it leaves the state as
    it was, whatever the chain validator says of it. *)
Theorem replaceChain_ignores_prefix (st : State) (front back : list block) :
  blockchain st = front ++ back ->
  state_after (replaceChain front) st = st.
Proof.
  intros Hchain.
  apply replaceChain_not_preferred.
  intros (_ & received & held & Hreceived & Hheld & Hgt).
  unfold getBlockchain in Hheld. rewrite Hchain in Hheld.
  pose proof (accumulated_app front back received held Hreceived Hheld) as Hbelow.
  unfold below in Hbelow. congruence.
Qed.

(** *** The difficulty of the canonical chain *)

Lemma adjusts_test (b : block) :
  (Z.rem (index b) DIFFICULTY_ADJUSTMENT_INTERVAL =? 0) && negb (index b =? 0) = true
  <-> adjusts b.
Proof.
  unfold adjusts.
  rewrite andb_true_iff, negb_true_iff, Z.eqb_eq, Z.eqb_neq. tauto.
Qed.

Lemma adjusts_test_false (b : block) :
  ~ adjusts b ->
  (Z.rem (index b) DIFFICULTY_ADJUSTMENT_INTERVAL =? 0) && negb (index b =? 0) = false.
Proof.
  intros Hnot. apply not_true_is_false. now rewrite adjusts_test.
Qed.

Lemma getDifficulty_throws (st : State) (latest : block) :
  getLatestBlock st = Some latest ->
  (getDifficulty st (getBlockchain st) = Throw TypeError
   <-> adjusts latest /\ length_of (blockchain st) < DIFFICULTY_ADJUSTMENT_INTERVAL).
Proof.
  intros Hlatest.
  unfold getDifficulty, getBlockchain.
  unfold getLatestBlock in Hlatest. rewrite Hlatest.
  destruct ((Z.rem (index latest) DIFFICULTY_ADJUSTMENT_INTERVAL =? 0)
            && negb (index latest =? 0)) eqn:Htest.
  - apply adjusts_test in Htest.
    unfold getAdjustedDifficulty.
    destruct (Z_lt_ge_dec (length_of (blockchain st)) DIFFICULTY_ADJUSTMENT_INTERVAL)
      as [Hshort | Hlong].
    + rewrite index_of_outside by lia. tauto.
    + destruct (index_of_defined (blockchain st)
                  (length_of (blockchain st) - DIFFICULTY_ADJUSTMENT_INTERVAL))
        as (prev & ->).
      { unfold DIFFICULTY_ADJUSTMENT_INTERVAL in *. lia. }
      split; [| lia].
      destruct (_ <? _); [discriminate |].
      destruct (_ >? _); discriminate.
  - split; [discriminate |].
    intros [Hadj _]. apply adjusts_test in Hadj. congruence.
Qed.

(** X11: on the canonical chain, with latest block [latest],
    [getDifficulty] returns the difficulty of [latest] unless the index
    of [latest] is a multiple of 10 other than 0.  In that case it
    raises [TypeError] when the chain has fewer than 10 blocks, and
    otherwise reads the block [prev] ten positions before the end of
    the chain and returns its difficulty plus 1 when [latest] is less
    than 50 seconds younger than [prev], minus 1 (with no floor at 0)
    when it is more than 200 seconds younger, and unchanged in between,
    50 and 200 included. *)
Theorem getDifficulty_of_canonical_chain (st : State) (latest : block) :
  getLatestBlock st = Some latest ->
  (~ adjusts latest ->
   getDifficulty st (getBlockchain st) = Ret (difficulty latest))
  /\ (adjusts latest ->
      length_of (blockchain st) < 10 ->
      getDifficulty st (getBlockchain st) = Throw TypeError)
  /\ (adjusts latest ->
      10 <= length_of (blockchain st) ->
      exists prev : block,
        index_of (blockchain st) (length_of (blockchain st) - 10) = Some prev
        /\ getDifficulty st (getBlockchain st)
           = Ret (if timestamp latest - timestamp prev <? 50
                  then difficulty prev + 1
                  else if 200 <? timestamp latest - timestamp prev
                       then difficulty prev - 1
                       else difficulty prev)).
Proof.
  intros Hlatest.
  split; [| split].
  - intros Hnot.
    unfold getDifficulty, getBlockchain.
    unfold getLatestBlock in Hlatest. rewrite Hlatest.
    now rewrite (adjusts_test_false latest Hnot).
  - intros Hadj Hshort.
    apply (getDifficulty_throws st latest Hlatest). now split.
  - intros Hadj Hlong.
    destruct (index_of_defined (blockchain st) (length_of (blockchain st) - 10))
      as (prev & Hprev); [lia |].
    exists prev. split; [exact Hprev |].
    unfold getDifficulty, getBlockchain.
    unfold getLatestBlock in Hlatest. rewrite Hlatest.
    apply adjusts_test in Hadj. rewrite Hadj.
    unfold getAdjustedDifficulty.
    change DIFFICULTY_ADJUSTMENT_INTERVAL with 10. rewrite Hprev.
    change (BLOCK_GENERATION_INTERVAL * 10 / 2) with 50.
    change (BLOCK_GENERATION_INTERVAL * 10 * 2) with 200.
    rewrite Z.gtb_ltb.
    destruct (_ <? 50); [reflexivity |].
    now destruct (200 <? _).
Qed.

Lemma generateNextBlock_throws (fuel : nat) (now : Z)
      (payload : list Transaction) (st : State) :
  result_of (generateNextBlock fuel now payload) st = Throw TypeError
  <-> getLatestBlock st = None
      \/ getDifficulty st (getBlockchain st) = Throw TypeError.
Proof.
  unfold result_of, getBlockchain. rewrite generateNextBlock_run.
  destruct (getLatestBlock st) as [latest |] eqn:Hlatest;
    [| split; [now left | reflexivity]].
  destruct (getDifficulty st (blockchain st)) as [d | [] |].
  - split; [| intros [Hnone | Hthrow]; discriminate].
    intros Hthrow. exfalso.
    destruct (findBlock fuel (index latest + 1) (hash latest) now payload d)
      as [b |]; [| discriminate].
    destruct (addBlockToChain_state b st)
      as [[Hret Hst] | (u & _ & _ & Hret & Hst)];
      unfold result_of, state_after in Hret, Hst;
      destruct (addBlockToChain b st) as [r st']; simpl in Hret, Hst;
      subst r; discriminate.
  - split; [now right | reflexivity].
  - split; [discriminate | intros [Hnone | Hthrow]; discriminate].
Qed.

(** X12: [generateNextBlock] raises [TypeError] exactly when the
    canonical chain is empty, or when the index of its latest block is
    a multiple of 10 other than 0 while the chain has fewer than 10
    blocks. *)
Theorem generateNextBlock_TypeError (fuel : nat) (now : Z)
        (payload : list Transaction) (st : State) :
  result_of (generateNextBlock fuel now payload) st = Throw TypeError
  <-> blockchain st = []
      \/ exists latest : block,
          getLatestBlock st = Some latest
          /\ adjusts latest
          /\ length_of (blockchain st) < DIFFICULTY_ADJUSTMENT_INTERVAL.
Proof.
  rewrite generateNextBlock_throws.
  split.
  - intros [Hnone | Hthrow].
    + left. now apply getLatestBlock_none.
    + destruct (getLatestBlock st) as [latest |] eqn:Hlatest.
      * right. exists latest. split; [reflexivity |].
        now apply (getDifficulty_throws st latest Hlatest).
      * left. now apply getLatestBlock_none.
  - intros [Hnil | (latest & Hlatest & Hadj & Hshort)].
    + left. now apply getLatestBlock_empty.
    + right. apply (getDifficulty_throws st latest Hlatest). now split.
Qed.

(** *** Chains whose indices are positions *)

Lemma indexed_initial : indexed [genesisBlock].
Proof.
  intros i b Hb.
  pose proof (index_of_range _ _ _ Hb) as Hrange.
  unfold length_of in Hrange. simpl in Hrange.
  assert (i = 0) by lia. subst i.
  injection Hb as <-. reflexivity.
Qed.

Lemma indexed_push (chain : list block) (l b : block) :
  indexed chain ->
  index_of chain (length_of chain - 1) = Some l ->
  index b = index l + 1 ->
  indexed (chain ++ [b]).
Proof.
  intros Hchain Hl Hb i x Hx.
  destruct (index_of_app_end chain b x i Hx) as [Hin | [-> ->]].
  - now apply Hchain.
  - rewrite Hb, (Hchain _ _ Hl). lia.
Qed.

Lemma indexed_never_short (st : State) (latest : block) :
  indexed (blockchain st) ->
  getLatestBlock st = Some latest ->
  adjusts latest ->
  DIFFICULTY_ADJUSTMENT_INTERVAL <= length_of (blockchain st).
Proof.
  intros Hindexed Hlatest [Hrem Hnonzero].
  pose proof (Hindexed _ _ Hlatest) as Hindex.
  pose proof (index_of_range _ _ _ Hlatest) as Hrange.
  unfold DIFFICULTY_ADJUSTMENT_INTERVAL in *.
  destruct (Z_lt_ge_dec (length_of (blockchain st)) 10) as [Hshort | Hlong]; [| lia].
  rewrite Z.rem_small in Hrem by lia. lia.
Qed.

(** *** The difficulty policy

    [getDifficulty] and [getAdjustedDifficulty] are private to the
    module and the one call, in [generateNextBlock], hands them the
    canonical chain. *)

(** C6: on a non-empty canonical chain [getDifficulty] returns what
    [getAdjustedDifficulty] returns for that chain when the index of
    the latest block is a multiple of the adjustment interval other
    than 0, and otherwise the difficulty of the latest block unchanged;
    a latest block of index 0 never triggers the adjustment. *)
Theorem getDifficulty_policy (st : State) (latest : block) :
  getLatestBlock st = Some latest ->
  (adjusts latest ->
   getDifficulty st (getBlockchain st)
   = getAdjustedDifficulty st latest (getBlockchain st))
  /\ (~ adjusts latest ->
      getDifficulty st (getBlockchain st) = Ret (difficulty latest))
  /\ (index latest = 0 ->
      getDifficulty st (getBlockchain st) = Ret (difficulty latest)).
Proof.
  intros Hlatest.
  pose proof (getDifficulty_same_length st (getBlockchain st) latest eq_refl Hlatest)
    as Hrun.
  split; [| split].
  - intros Hadj. apply adjusts_test in Hadj.
    rewrite Hrun. unfold DIFFICULTY_ADJUSTMENT_INTERVAL in Hadj |- *.
    now rewrite Hadj.
  - intros Hnot. rewrite Hrun.
    now rewrite (adjusts_test_false latest Hnot).
  - intros Hzero. rewrite Hrun, Hzero. reflexivity.
Qed.

(** C5: on a canonical chain of at least [adjustmentInterval] blocks
    whose latest block has an index that is a positive multiple of the
    adjustment interval, [getAdjustedDifficulty] reads the block at
    position chain length - adjustment interval and returns its
    difficulty plus 1 when the latest block is younger than it by less
    than half of 10 * 10 seconds, its difficulty minus 1 when by more
    than the double, and its difficulty otherwise: the result is
    within 1 of that difficulty.  A chain whose blocks sit at the
    positions their indices name has that many blocks whenever the
    index of its latest block is such a multiple. *)
Theorem getAdjustedDifficulty_of_canonical_chain :
  (forall (st : State) (latest : block),
      getLatestBlock st = Some latest ->
      0 < index latest ->
      Z.rem (index latest) DIFFICULTY_ADJUSTMENT_INTERVAL = 0 ->
      DIFFICULTY_ADJUSTMENT_INTERVAL <= length_of (getBlockchain st) ->
      exists (prevAdjustmentBlock : block) (r : Z),
        index_of (getBlockchain st)
                 (length_of (getBlockchain st) - DIFFICULTY_ADJUSTMENT_INTERVAL)
        = Some prevAdjustmentBlock
        /\ getAdjustedDifficulty st latest (getBlockchain st) = Ret r
        /\ (timestamp latest - timestamp prevAdjustmentBlock
            < BLOCK_GENERATION_INTERVAL * DIFFICULTY_ADJUSTMENT_INTERVAL / 2 ->
            r = difficulty prevAdjustmentBlock + 1)
        /\ (timestamp latest - timestamp prevAdjustmentBlock
            > BLOCK_GENERATION_INTERVAL * DIFFICULTY_ADJUSTMENT_INTERVAL * 2 ->
            r = difficulty prevAdjustmentBlock - 1)
        /\ (BLOCK_GENERATION_INTERVAL * DIFFICULTY_ADJUSTMENT_INTERVAL / 2
            <= timestamp latest - timestamp prevAdjustmentBlock
            <= BLOCK_GENERATION_INTERVAL * DIFFICULTY_ADJUSTMENT_INTERVAL * 2 ->
            r = difficulty prevAdjustmentBlock)
        /\ Z.abs (r - difficulty prevAdjustmentBlock) <= 1)
  /\ (forall (st : State) (latest : block),
        indexed (getBlockchain st) ->
        getLatestBlock st = Some latest ->
        0 < index latest ->
        Z.rem (index latest) DIFFICULTY_ADJUSTMENT_INTERVAL = 0 ->
        DIFFICULTY_ADJUSTMENT_INTERVAL <= length_of (getBlockchain st)).
Proof.
  split.
  - intros st latest Hlatest Hpos Hrem Hlong.
    destruct (index_of_defined (getBlockchain st)
                (length_of (getBlockchain st) - DIFFICULTY_ADJUSTMENT_INTERVAL))
      as (prev & Hprev).
    { unfold DIFFICULTY_ADJUSTMENT_INTERVAL in *. lia. }
    exists prev.
    destruct (getAdjustedDifficulty_same_length st (getBlockchain st) latest prev
                eq_refl Hprev) as (r & Hr).
    exists r. split; [exact Hprev | exact Hr].
  - intros st latest Hindexed Hlatest Hpos Hrem.
    apply (indexed_never_short st latest Hindexed Hlatest).
    split; [exact Hrem | lia].
Qed.

Section LinkedIndices.

Hypothesis new_block_follows :
  forall b l : block, isValidNewBlock b (Some l) = true -> index b = index l + 1.

Hypothesis valid_chain_indexed :
  forall chain : list block, isValidChain chain = true -> indexed chain.

Lemma step_indexed (st st' : State) :
  step st st' ->
  blockchain st <> [] ->
  indexed (blockchain st) ->
  indexed (blockchain st').
Proof.
  intros Hstep Hne Hindexed.
  destruct (latest_of_nonempty (blockchain st) Hne) as (l & Hl).
  fold (getLatestBlock st) in Hl.
  destruct Hstep as [st b | st fuel now payload | st candidate].
  - destruct (addBlockToChain_state b st) as [[_ ->] | (u & Hvalid & _ & _ & ->)];
      [exact Hindexed |].
    simpl. rewrite Hl in Hvalid.
    apply (indexed_push _ l b Hindexed Hl). now apply new_block_follows.
  - destruct (generateNextBlock_cases fuel now payload st)
      as [[-> _] | (previousBlock & b & d & u & Hlatest & _ & _ & Hvalid & _ & Hrun)];
      [exact Hindexed |].
    unfold state_after. rewrite Hrun. simpl.
    apply (indexed_push _ previousBlock b Hindexed Hlatest).
    now apply new_block_follows.
  - destruct (replaceChain_state candidate st) as [-> | [[Hvalid _] ->]];
      [exact Hindexed |].
    simpl. now apply valid_chain_indexed.
Qed.

Lemma reachable_indexed (st : State) : reachable st -> indexed (blockchain st).
Proof.
  induction 1 as [| st st' Hreach IH Hstep].
  - apply indexed_initial.
  - apply (step_indexed st st' Hstep); [| exact IH].
    now apply reachable_nonempty.
Qed.

(** X13: suppose the new-block validator only accepts a block whose
    index is the index of the latest block plus 1, and the chain
    validator only accepts chains in which every block sits at the
    position its index names.  Then in every state reached from the
    initial one each block of the canonical chain sits at the position
    its index names, and neither [getDifficulty] on the canonical chain
    nor [generateNextBlock] raises [TypeError]. *)
Theorem reachable_never_TypeError (st : State) :
  reachable st ->
  indexed (blockchain st)
  /\ getDifficulty st (getBlockchain st) <> Throw TypeError
  /\ forall (fuel : nat) (now : Z) (payload : list Transaction),
      result_of (generateNextBlock fuel now payload) st <> Throw TypeError.
Proof.
  intros Hreach.
  pose proof (reachable_indexed st Hreach) as Hindexed.
  destruct (reachable_latest st Hreach) as (latest & Hlatest).
  assert (Hsafe : getDifficulty st (getBlockchain st) <> Throw TypeError).
  { intros Hthrow.
    apply (getDifficulty_throws st latest Hlatest) in Hthrow as [Hadj Hshort].
    pose proof (indexed_never_short st latest Hindexed Hlatest Hadj). lia. }
  split; [exact Hindexed |].
  split; [exact Hsafe |].
  intros fuel now payload Hthrow.
  apply generateNextBlock_throws in Hthrow as [Hnone | Hthrow];
    [congruence | contradiction].
Qed.

End LinkedIndices.

(** *** The genesis block *)

(** X14: suppose the chain validator only accepts chains that start
    with the genesis block.  Then in every state reached from the
    initial one the first block of the canonical chain is the genesis
    block. *)
Theorem genesis_stays_first :
  (forall chain : list block,
      isValidChain chain = true -> exists rest, chain = genesisBlock :: rest) ->
  forall st : State,
    reachable st -> exists rest, blockchain st = genesisBlock :: rest.
Proof.
  intros Hvalidator st Hreach.
  induction Hreach as [| st st' _ (rest & Hchain) Hstep].
  - now exists [].
  - destruct Hstep as [st b | st fuel now payload | st candidate].
    + destruct (addBlockToChain_chain b st) as [-> | ->];
        [now exists rest | exists (rest ++ [b]); now rewrite Hchain].
    + destruct (generateNextBlock_chain fuel now payload st) as [-> | (b & ->)];
        [now exists rest | exists (rest ++ [b]); now rewrite Hchain].
    + destruct (replaceChain_state candidate st) as [-> | [[Hvalid _] ->]];
        [now exists rest | now apply Hvalidator].
Qed.

End Behaviour.


(** ** The further properties on concrete inputs *)

Section BehaviourExamples.

#[local] Existing Instance Demo.collaborators.

Local Open Scope Z_scope.

Lemma generateNextBlock_returns_mined_witness :
  result_of (generateNextBlock 1 1588310950 [5]) initial = Ret (Some Demo.block1)
  /\ exists (previousBlock : block) (d : Z) (u : list UnspentTxOut),
      getLatestBlock initial = Some previousBlock
      /\ getDifficulty initial (getBlockchain initial) = Ret d
      /\ mined (index previousBlock + 1) (hash previousBlock) 1588310950 [5] d
               Demo.block1
      /\ isValidNewBlock Demo.block1 (Some previousBlock) = true
      /\ processTransactions [5] (unspentTxOuts initial) (index previousBlock + 1)
         = Some u
      /\ state_after (generateNextBlock 1 1588310950 [5]) initial
         = broadcastLatest (appended Demo.block1 u initial)
      /\ getLatestBlock (state_after (generateNextBlock 1 1588310950 [5]) initial)
         = Some Demo.block1.
Proof.
  split; [reflexivity |].
  apply (generateNextBlock_returns_mined (C := Demo.collaborators) 1%nat 1588310950 [5] initial Demo.block1).
  reflexivity.
Defined.

Lemma generateNextBlock_changes_only_on_success_witness :
  (result_of (generateNextBlock 1 1588310950 [-5]) initial = Ret None
   /\ state_after (generateNextBlock 1 1588310950 [-5]) initial = initial)
  /\ (result_of (generateNextBlock 0 1588310950 [5]) initial = OutOfFuel
      /\ state_after (generateNextBlock 0 1588310950 [5]) initial = initial).
Proof.
  split.
  - split; [reflexivity |].
    apply (generateNextBlock_changes_only_on_success (C := Demo.collaborators) 1%nat 1588310950 [-5] initial).
    left. reflexivity.
  - split; [reflexivity |].
    apply (generateNextBlock_changes_only_on_success (C := Demo.collaborators) 0%nat 1588310950 [5] initial).
    right. right. reflexivity.
Defined.

Lemma broadcast_only_on_change_witness :
  step initial (state_after (replaceChain Demo.received) initial)
  /\ (broadcasts (state_after (replaceChain Demo.received) initial)
      = broadcasts initial
      \/ (broadcasts (state_after (replaceChain Demo.received) initial)
          = S (broadcasts initial)
          /\ blockchain (state_after (replaceChain Demo.received) initial)
             <> blockchain initial)).
Proof.
  assert (Hstep : step initial (state_after (replaceChain Demo.received) initial))
    by apply step_replace.
  split; [exact Hstep |].
  exact (proj2 broadcast_only_on_change _ _ Hstep).
Defined.

Lemma append_preserves_positions_witness :
  index_of (blockchain initial) 0 = Some genesisBlock
  /\ index_of (blockchain (state_after (addBlockToChain Demo.block1) initial)) 0
     = Some genesisBlock
  /\ index_of
       (blockchain (state_after (generateNextBlock 1 1588310950 [5]) initial)) 0
     = Some genesisBlock.
Proof.
  assert (H0 : index_of (blockchain initial) 0 = Some genesisBlock) by reflexivity.
  pose proof (append_preserves_positions (C := Demo.collaborators) initial 0 genesisBlock H0) as (Hadd & Hgen).
  split; [exact H0 |].
  split; [apply Hadd | apply Hgen].
Defined.

Lemma addBlockToChain_adds_work_witness :
  result_of (addBlockToChain Demo.block1) initial = Ret true
  /\ getAccumulatedDifficulty (getBlockchain initial) = Ret (ofZ 1)
  /\ exactlySummable (blockchain initial ++ [Demo.block1])
  /\ exists w' : number,
      getAccumulatedDifficulty
        (getBlockchain (state_after (addBlockToChain Demo.block1) initial)) = Ret w'
      /\ greater (ofZ 1) w' = false
      /\ exists n : Z,
          ofZ 1 = ofZ n
          /\ w' = ofZ (n + 2 ^ difficulty Demo.block1)
          /\ greater w' (ofZ 1) = true.
Proof.
  assert (Hret : result_of (addBlockToChain Demo.block1) initial = Ret true)
    by reflexivity.
  assert (Hw : getAccumulatedDifficulty (getBlockchain initial) = Ret (ofZ 1))
    by (vm_compute; reflexivity).
  assert (Hsum : exactlySummable (blockchain initial ++ [Demo.block1])).
  { split; [repeat constructor; discriminate | vm_compute; reflexivity]. }
  destruct (addBlockToChain_adds_work (C := Demo.collaborators) Demo.block1 initial
              (ofZ 1) Hret Hw) as (w' & Hw' & Hbelow & Hexact).
  split; [exact Hret |].
  split; [exact Hw |].
  split; [exact Hsum |].
  exists w'. split; [exact Hw' |]. split; [exact Hbelow |].
  exact (Hexact Hsum).
Defined.

Lemma extended_balance_set_witness :
  extended (state_after (addBlockToChain Demo.block1) initial)
  /\ exists rest : list block,
      blockchain (state_after (addBlockToChain Demo.block1) initial)
      = genesisBlock :: rest
      /\ foldPayloads rest []
         = Some (unspentTxOuts (state_after (addBlockToChain Demo.block1) initial)).
Proof.
  assert (Hext : extended (state_after (addBlockToChain Demo.block1) initial))
    by (apply extended_add; apply extended_initial).
  split; [exact Hext |].
  exact (extended_balance_set _ Hext).
Defined.

Lemma replaceChain_TypeError_witness :
  blockchain (@initial Lax.collaborators) <> []
  /\ @isValidChain Lax.collaborators [] = true
  /\ result_of (C := Lax.collaborators) (replaceChain []) initial = Throw TypeError
  /\ state_after (C := Lax.collaborators) (replaceChain []) initial = initial
  /\ result_of (replaceChain Demo.received) initial = Ret tt.
Proof.
  assert (Hlax : blockchain (@initial Lax.collaborators) <> []) by discriminate.
  assert (Hdemo : blockchain (@initial Demo.collaborators) <> []) by discriminate.
  pose proof (replaceChain_TypeError (C := Lax.collaborators) [] initial Hlax)
    as (Hiff & Hkeeps & _).
  pose proof (replaceChain_TypeError Demo.received initial Hdemo) as (_ & _ & Hret).
  assert (Hthrow : result_of (C := Lax.collaborators) (replaceChain []) initial
                   = Throw TypeError).
  { apply Hiff. split; reflexivity. }
  split; [exact Hlax |].
  split; [reflexivity |].
  split; [exact Hthrow |].
  split; [exact (Hkeeps Hthrow) |].
  apply Hret. intros [_ Hnil]. discriminate.
Defined.

Lemma replaceChain_installs_extension_witness :
  blockchain initial <> []
  /\ [Demo.block1] <> []
  /\ isValidChain (blockchain initial ++ [Demo.block1]) = true
  /\ exactlySummable (blockchain initial ++ [Demo.block1])
  /\ installs (blockchain initial ++ [Demo.block1]) initial
  /\ blockchain (state_after (replaceChain (blockchain initial ++ [Demo.block1]))
                             initial)
     = blockchain initial ++ [Demo.block1].
Proof.
  assert (Hne : blockchain initial <> []) by discriminate.
  assert (Hextra : [Demo.block1] <> []) by discriminate.
  assert (Hvalid : isValidChain (blockchain initial ++ [Demo.block1]) = true)
    by reflexivity.
  assert (Hsum : exactlySummable (blockchain initial ++ [Demo.block1])).
  { split; [repeat constructor; discriminate | vm_compute; reflexivity]. }
  split; [exact Hne |].
  split; [exact Hextra |].
  split; [exact Hvalid |].
  split; [exact Hsum |].
  exact (replaceChain_installs_extension (C := Demo.collaborators) initial
           [Demo.block1] Hne Hextra Hvalid Hsum).
Defined.

Lemma replaceChain_ignores_prefix_witness :
  blockchain (mkState Demo.received [5] 0) = [genesisBlock] ++ [Demo.block1]
  /\ isValidChain [genesisBlock] = true
  /\ state_after (replaceChain [genesisBlock]) (mkState Demo.received [5] 0)
     = mkState Demo.received [5] 0.
Proof.
  split; [reflexivity |].
  split; [reflexivity |].
  apply (replaceChain_ignores_prefix (C := Demo.collaborators) (mkState Demo.received [5] 0)
                                     [genesisBlock] [Demo.block1]).
  reflexivity.
Defined.

Lemma getDifficulty_of_canonical_chain_witness :
  (getLatestBlock initial = Some genesisBlock
   /\ ~ adjusts genesisBlock
   /\ getDifficulty initial (getBlockchain initial) = Ret (difficulty genesisBlock))
  /\ (getLatestBlock (mkState [Demo.plain 10 110 0] [] 0) = Some (Demo.plain 10 110 0)
      /\ adjusts (Demo.plain 10 110 0)
      /\ length_of (blockchain (mkState [Demo.plain 10 110 0] [] 0)) < 10
      /\ getDifficulty (mkState [Demo.plain 10 110 0] [] 0) [Demo.plain 10 110 0]
         = Throw TypeError)
  /\ (getLatestBlock (mkState Demo.eleven [] 0) = Some (Demo.plain 10 110 0)
      /\ 10 <= length_of (blockchain (mkState Demo.eleven [] 0))
      /\ exists prev : block,
          index_of Demo.eleven (length_of Demo.eleven - 10) = Some prev
          /\ getDifficulty (mkState Demo.eleven [] 0) Demo.eleven
             = Ret (if timestamp (Demo.plain 10 110 0) - timestamp prev <? 50
                    then difficulty prev + 1
                    else if 200 <? timestamp (Demo.plain 10 110 0) - timestamp prev
                         then difficulty prev - 1
                         else difficulty prev)).
Proof.
  assert (Hgenesis : ~ adjusts genesisBlock).
  { intros [_ Hnonzero]. now apply Hnonzero. }
  assert (Hten : adjusts (Demo.plain 10 110 0)).
  { split; [reflexivity | discriminate]. }
  split; [| split].
  - split; [reflexivity |].
    split; [exact Hgenesis |].
    exact (proj1 (getDifficulty_of_canonical_chain initial genesisBlock eq_refl)
                 Hgenesis).
  - split; [reflexivity |].
    split; [exact Hten |].
    split; [reflexivity |].
    apply (getDifficulty_of_canonical_chain
             (mkState [Demo.plain 10 110 0] [] 0) (Demo.plain 10 110 0) eq_refl);
      [exact Hten | reflexivity].
  - split; [reflexivity |].
    split; [discriminate |].
    apply (getDifficulty_of_canonical_chain
             (mkState Demo.eleven [] 0) (Demo.plain 10 110 0) eq_refl);
      [exact Hten | discriminate].
Defined.

Lemma generateNextBlock_TypeError_witness :
  (exists latest : block,
      getLatestBlock (mkState [Demo.plain 10 110 0] [] 0) = Some latest
      /\ adjusts latest
      /\ length_of (blockchain (mkState [Demo.plain 10 110 0] [] 0))
         < DIFFICULTY_ADJUSTMENT_INTERVAL)
  /\ result_of (generateNextBlock 1 1588310950 [])
               (mkState [Demo.plain 10 110 0] [] 0)
     = Throw TypeError.
Proof.
  assert (Hshort : exists latest : block,
             getLatestBlock (mkState [Demo.plain 10 110 0] [] 0) = Some latest
             /\ adjusts latest
             /\ length_of (blockchain (mkState [Demo.plain 10 110 0] [] 0))
                < DIFFICULTY_ADJUSTMENT_INTERVAL).
  { exists (Demo.plain 10 110 0).
    split; [reflexivity |].
    split; [split; [reflexivity | discriminate] | reflexivity]. }
  split; [exact Hshort |].
  apply (proj2 (generateNextBlock_TypeError (C := Demo.collaborators) 1%nat
                  1588310950 [] (mkState [Demo.plain 10 110 0] [] 0))).
  right. exact Hshort.
Defined.

Lemma eleven_indexed : indexed Demo.eleven.
Proof.
  intros i b Hb.
  pose proof (index_of_range _ _ _ Hb) as Hrange.
  unfold length_of in Hrange. simpl in Hrange.
  assert (Hi : i = 0 \/ i = 1 \/ i = 2 \/ i = 3 \/ i = 4 \/ i = 5 \/ i = 6
               \/ i = 7 \/ i = 8 \/ i = 9 \/ i = 10) by lia.
  repeat (destruct Hi as [-> | Hi]; [injection Hb as <-; reflexivity |]).
  subst i. injection Hb as <-. reflexivity.
Qed.

Lemma getDifficulty_policy_witness :
  (getLatestBlock initial = Some genesisBlock
   /\ index genesisBlock = 0
   /\ ~ adjusts genesisBlock
   /\ getDifficulty initial (getBlockchain initial) = Ret (difficulty genesisBlock))
  /\ (getLatestBlock (mkState Demo.eleven [] 0) = Some (Demo.plain 10 110 0)
      /\ adjusts (Demo.plain 10 110 0)
      /\ getDifficulty (mkState Demo.eleven [] 0) Demo.eleven
         = getAdjustedDifficulty (mkState Demo.eleven [] 0) (Demo.plain 10 110 0)
                                 Demo.eleven).
Proof.
  assert (Hgenesis : ~ adjusts genesisBlock).
  { intros [_ Hnonzero]. now apply Hnonzero. }
  assert (Hten : adjusts (Demo.plain 10 110 0)).
  { split; [reflexivity | discriminate]. }
  split.
  - split; [reflexivity |].
    split; [reflexivity |].
    split; [exact Hgenesis |].
    exact (proj2 (proj2 (getDifficulty_policy initial genesisBlock eq_refl)) eq_refl).
  - split; [reflexivity |].
    split; [exact Hten |].
    exact (proj1 (getDifficulty_policy (mkState Demo.eleven [] 0)
                    (Demo.plain 10 110 0) eq_refl) Hten).
Defined.

Lemma getAdjustedDifficulty_of_canonical_chain_witness :
  getLatestBlock (mkState Demo.eleven [] 0) = Some (Demo.plain 10 110 0)
  /\ 0 < index (Demo.plain 10 110 0)
  /\ Z.rem (index (Demo.plain 10 110 0)) DIFFICULTY_ADJUSTMENT_INTERVAL = 0
  /\ indexed (getBlockchain (mkState Demo.eleven [] 0))
  /\ DIFFICULTY_ADJUSTMENT_INTERVAL <= length_of (getBlockchain (mkState Demo.eleven [] 0))
  /\ index_of Demo.eleven (length_of Demo.eleven - DIFFICULTY_ADJUSTMENT_INTERVAL)
     = Some (Demo.plain 1 101 7)
  /\ timestamp (Demo.plain 10 110 0) - timestamp (Demo.plain 1 101 7)
     < BLOCK_GENERATION_INTERVAL * DIFFICULTY_ADJUSTMENT_INTERVAL / 2
  /\ getAdjustedDifficulty (mkState Demo.eleven [] 0) (Demo.plain 10 110 0)
                           Demo.eleven = Ret 8.
Proof.
  pose proof (getAdjustedDifficulty_of_canonical_chain (C := Demo.collaborators))
    as (Hreads & Hlong).
  assert (Hlatest : getLatestBlock (mkState Demo.eleven [] 0)
                    = Some (Demo.plain 10 110 0)) by reflexivity.
  assert (Hpos : 0 < index (Demo.plain 10 110 0)) by reflexivity.
  assert (Hrem : Z.rem (index (Demo.plain 10 110 0)) DIFFICULTY_ADJUSTMENT_INTERVAL = 0)
    by reflexivity.
  assert (Hfast : timestamp (Demo.plain 10 110 0) - timestamp (Demo.plain 1 101 7)
                  < BLOCK_GENERATION_INTERVAL * DIFFICULTY_ADJUSTMENT_INTERVAL / 2)
    by reflexivity.
  pose proof (Hlong (mkState Demo.eleven [] 0) (Demo.plain 10 110 0) eleven_indexed
                    Hlatest Hpos Hrem) as Hlength.
  destruct (Hreads (mkState Demo.eleven [] 0) (Demo.plain 10 110 0) Hlatest Hpos
                   Hrem Hlength)
    as (prev & r & Hprev & Hr & Hraise & _).
  assert (Hsecond : prev = Demo.plain 1 101 7).
  { change (Some (Demo.plain 1 101 7) = Some prev) in Hprev. congruence. }
  subst prev.
  split; [exact Hlatest |].
  split; [exact Hpos |].
  split; [exact Hrem |].
  split; [exact eleven_indexed |].
  split; [exact Hlength |].
  split; [exact Hprev |].
  split; [exact Hfast |].
  rewrite (Hraise Hfast) in Hr. exact Hr.
Defined.

End BehaviourExamples.

(** The validators of [Strict] keep indices and positions together. *)

Section StrictExamples.

#[local] Existing Instance Strict.collaborators.

Local Open Scope Z_scope.

Lemma index_of_cons {A : Type} (x : A) (l : list A) (i : Z) :
  0 < i -> index_of (x :: l) i = index_of l (i - 1).
Proof.
  intros Hpos. unfold index_of.
  destruct (Z.ltb_spec i 0) as [Hneg | _]; [lia |].
  destruct (Z.ltb_spec (i - 1) 0) as [Hneg | _]; [lia |].
  replace (Z.to_nat i) with (S (Z.to_nat (i - 1))) by lia.
  reflexivity.
Qed.

Lemma demo_new_block_follows (b l : Block Z) :
  Demo.isValidNewBlock b (Some l) = true -> index b = index l + 1.
Proof.
  unfold Demo.isValidNewBlock.
  rewrite !andb_true_iff, Z.eqb_eq. tauto.
Qed.

Lemma demo_linked_indices (chain : list (Block Z)) :
  Demo.linked chain = true ->
  forall (h : Block Z) (rest : list (Block Z)),
    chain = h :: rest ->
    forall (i : Z) (b : Block Z),
      index_of chain i = Some b -> index b = index h + i.
Proof.
  induction chain as [| b0 chain IH]; intros Hlinked h rest Hchain i b Hb;
    [discriminate |].
  injection Hchain as -> ->.
  pose proof (index_of_range _ _ _ Hb) as Hrange.
  destruct (Z.eq_dec i 0) as [-> | Hne].
  - injection Hb as <-. lia.
  - rewrite index_of_cons in Hb by lia.
    destruct rest as [| b1 rest].
    + apply index_of_range in Hb. unfold length_of in Hb. simpl in Hb. lia.
    + simpl in Hlinked. apply andb_true_iff in Hlinked as [Hfollows Hlinked].
      apply demo_new_block_follows in Hfollows.
      rewrite (IH Hlinked b1 rest eq_refl (i - 1) b Hb). lia.
Qed.

Lemma strict_genesis (b : Block Z) :
  Strict.isGenesis b = true -> b = @genesisBlock Strict.collaborators.
Proof.
  destruct b as [i h p t d k n]. unfold Strict.isGenesis. simpl.
  rewrite !andb_true_iff, !Z.eqb_eq, !String.eqb_eq.
  intros ((((((-> & ->) & ->) & ->) & Hd) & ->) & ->).
  destruct d; [reflexivity | discriminate].
Qed.

Lemma strict_valid_chain_genesis (chain : list (Block Z)) :
  Strict.isValidChain chain = true ->
  exists rest, chain = @genesisBlock Strict.collaborators :: rest.
Proof.
  destruct chain as [| b0 rest]; [discriminate |]. simpl.
  intros Hvalid. apply andb_true_iff in Hvalid as [Hgenesis _].
  exists rest. now rewrite (strict_genesis b0 Hgenesis).
Qed.

Lemma strict_valid_chain_indexed (chain : list (Block Z)) :
  Strict.isValidChain chain = true -> indexed (C := Strict.collaborators) chain.
Proof.
  intros Hvalid i b Hb.
  destruct chain as [| b0 rest]; [discriminate |].
  unfold Strict.isValidChain in Hvalid.
  apply andb_true_iff in Hvalid as [Hgenesis Hlinked].
  pose proof (demo_linked_indices (b0 :: rest) Hlinked b0 rest eq_refl i b Hb) as Hi.
  apply strict_genesis in Hgenesis. subst b0.
  exact Hi.
Qed.

Lemma reachable_never_TypeError_witness :
  reachable (state_after (C := Strict.collaborators)
                         (replaceChain Strict.received) initial)
  /\ blockchain (state_after (C := Strict.collaborators)
                             (replaceChain Strict.received) initial)
     = Strict.received
  /\ indexed (C := Strict.collaborators) Strict.received
  /\ getDifficulty (C := Strict.collaborators)
       (state_after (replaceChain Strict.received) initial) Strict.received
     <> Throw TypeError
  /\ forall (fuel : nat) (now : Z) (payload : list Z),
      result_of (C := Strict.collaborators)
                (generateNextBlock fuel now payload)
                (state_after (replaceChain Strict.received) initial)
      <> Throw TypeError.
Proof.
  assert (Hreach : reachable (state_after (C := Strict.collaborators)
                                          (replaceChain Strict.received) initial)).
  { apply (reach_step initial); [apply reach_initial | apply step_replace]. }
  pose proof (reachable_never_TypeError (C := Strict.collaborators)
                demo_new_block_follows strict_valid_chain_indexed _ Hreach)
    as (Hindexed & Hdifficulty & Hgenerate).
  split; [exact Hreach |].
  split; [reflexivity |].
  split; [exact Hindexed |].
  split; [exact Hdifficulty | exact Hgenerate].
Defined.

Lemma genesis_stays_first_witness :
  reachable (state_after (C := Strict.collaborators)
                         (addBlockToChain Strict.block1) initial)
  /\ exists rest,
      blockchain (state_after (C := Strict.collaborators)
                              (addBlockToChain Strict.block1) initial)
      = genesisBlock :: rest.
Proof.
  assert (Hreach : reachable (state_after (C := Strict.collaborators)
                                          (addBlockToChain Strict.block1) initial)).
  { apply (reach_step initial); [apply reach_initial | apply step_add]. }
  split; [exact Hreach |].
  exact (genesis_stays_first (C := Strict.collaborators)
           strict_valid_chain_genesis _ Hreach).
Defined.

End StrictExamples.
